(** * Smart Email Triage System: a shallow embedding of [email_triage.py]

    The class [EmailTriageSystem] is embedded method by method.  Python
    [str] values are Rocq strings whose characters are read as the code
    points 0..255 (ASCII and Latin-1), with [str.lower] and the regular
    expression classes [\w] and [[a-zA-Z]] defined on that range as CPython
    defines them.  Dictionaries are [gmap]s, the set of stop words is a
    [gset], the mutable attribute [processed_emails] is threaded through a
    small state-and-error monad, and the clock reading of [datetime.now()]
    is an explicit argument.  Console output is not modelled. *)

From Stdlib Require Import Ascii String.
From stdpp Require Import gmap strings list fin_maps sorting.

(** ** Characters *)

Module Char.

Definition code (c : ascii) : N := N_of_ascii c.

Definition in_range (lo hi : N) (c : ascii) : bool :=
  ((lo <=? code c) && (code c <=? hi))%N.

Definition is_upper (c : ascii) : bool := in_range 65 90 c.
Definition is_lower (c : ascii) : bool := in_range 97 122 c.
Definition is_digit (c : ascii) : bool := in_range 48 57 c.

(** The character class [[a-zA-Z]]. *)
Definition is_letter (c : ascii) : bool := is_lower c || is_upper c.

(** The class [\w] of a [str] pattern: [c.isalnum()] or the underscore.
    Above 127 the alphanumeric code points are the Latin-1 letters, the
    ordinal indicators, the superscript digits, micro and the vulgar
    fractions. *)
Definition is_word (c : ascii) : bool :=
  is_letter c || is_digit c || (code c =? 95)%N
  || (code c =? 170)%N || in_range 178 179 c || (code c =? 181)%N
  || in_range 185 186 c || in_range 188 190 c
  || in_range 192 214 c || in_range 216 246 c || in_range 248 255 c.

(** One character of [str.lower]: A-Z and the Latin-1 capitals move up by
    32, every other code point below 256 is fixed. *)
Definition lower (c : ascii) : ascii :=
  if is_upper c || in_range 192 214 c || in_range 216 222 c
  then ascii_of_N (code c + 32)
  else c.

End Char.

(** ** The [str] methods the program calls *)

Module Str.

(** [s.lower()] *)
Fixpoint lower (s : string) : string :=
  match s with
  | EmptyString => EmptyString
  | String c s' => String (Char.lower c) (lower s')
  end.

(** [s.startswith(w)] *)
Fixpoint startswith (w s : string) : bool :=
  match w, s with
  | EmptyString, _ => true
  | String a w', String b s' => Ascii.eqb a b && startswith w' s'
  | String _ _, EmptyString => false
  end.

(** [w in s]: some position of [s] starts an occurrence of [w]. *)
Fixpoint contains (w s : string) : bool :=
  match s with
  | EmptyString => startswith w EmptyString
  | String _ s' => startswith w s || contains w s'
  end.

(** [s.split(sep)] for a one-character separator; the result is never
    empty, [''.split('.')] being [['']]. *)
Fixpoint split (sep : ascii) (s : string) : list string :=
  match s with
  | EmptyString => [EmptyString]
  | String c s' =>
      if Ascii.eqb c sep then EmptyString :: split sep s'
      else match split sep s' with
           | seg :: segs => String c seg :: segs
           | [] => [String c EmptyString]
           end
  end.

(** [s[:n]] *)
Fixpoint slice_to (n : nat) (s : string) : string :=
  match n, s with
  | S n', String c s' => String c (slice_to n' s')
  | _, _ => EmptyString
  end.

(** [s.replace(a, b)] for one-character [a] and [b]. *)
Fixpoint replace (a b : ascii) (s : string) : string :=
  match s with
  | EmptyString => EmptyString
  | String c s' => String (if Ascii.eqb c a then b else c) (replace a b s')
  end.

(** [sep.join(l)] *)
Fixpoint join (sep : string) (l : list string) : string :=
  match l with
  | [] => EmptyString
  | [x] => x
  | x :: l' => x +:+ sep +:+ join sep l'
  end.

(** [l[0]] of a list of strings; only ever applied to the result of
    [split], which has a first element. *)
Definition first (l : list string) : string :=
  match l with
  | x :: _ => x
  | [] => EmptyString
  end.

End Str.

(** ** Classification and summary *)

Definition product_support_words : list string :=
  ["bug"; "error"; "not working"; "broken"; "crash"; "issue"; "problem";
   "feature"; "how to"].

Definition billing_words : list string :=
  ["bill"; "payment"; "charge"; "invoice"; "refund"; "subscription";
   "pricing"; "cost"].

(** [any(word in s for word in words)] *)
Definition any_in (words : list string) (s : string) : bool :=
  existsb (fun word => Str.contains word s) words.

Definition classify (email_lower : string) : string :=
  if any_in product_support_words email_lower then "Product Support"
  else if any_in billing_words email_lower then "Billing"
  else "General Inquiry".

Definition classify_and_summarize_email (email_content sender : string)
  : string * string :=
  let email_lower := Str.lower email_content in
  let category := classify email_lower in
  let first_sentence :=
    Str.slice_to 100 (Str.first (Str.split "."%char email_content)) in
  let summary :=
    "Customer " +:+ sender +:+ " needs help with " +:+ Str.lower category
    +:+ ": " +:+ first_sentence +:+ "..." in
  (category, summary).

(** ** [re.findall(r'\b[a-zA-Z]+\b', s)] *)

Module Re.

(** Whether a position holds a word character; before the first and after
    the last character of the text there is none. *)
Definition word_at (c : option ascii) : bool :=
  match c with
  | Some c => Char.is_word c
  | None => false
  end.

(** [\b]: the characters on the two sides differ in being word
    characters. *)
Definition boundary (prev next : option ascii) : bool :=
  xorb (word_at prev) (word_at next).

Definition peek (s : string) : option ascii :=
  match s with
  | String c _ => Some c
  | EmptyString => None
  end.

(** The rest of [[a-zA-Z]+\b] once the letter [prev] has been taken: the
    repetition is greedy, so a further letter is taken first, and only
    when the rest of the pattern then fails is [\b] tried here. *)
Fixpoint letters_then_boundary (prev : ascii) (s : string) : option string :=
  let stop :=
    if boundary (Some prev) (peek s) then Some EmptyString else None in
  match s with
  | String c s' =>
      if Char.is_letter c then
        match letters_then_boundary c s' with
        | Some m => Some (String c m)
        | None => stop
        end
      else stop
  | EmptyString => stop
  end.

(** One attempt of the whole pattern at the head of [s], the character
    before it being [prev]. *)
Definition match_at (prev : option ascii) (s : string) : option string :=
  match s with
  | String c s' =>
      if boundary prev (Some c) && Char.is_letter c then
        match letters_then_boundary c s' with
        | Some m => Some (String c m)
        | None => None
        end
      else None
  | EmptyString => None
  end.

(** [findall] attempts the pattern at successive positions from left to
    right and resumes after a match at its end: the [skip] characters
    inside a match start no attempt. *)
Fixpoint scan (skip : nat) (prev : option ascii) (s : string) : list string :=
  match s with
  | EmptyString => []
  | String c s' =>
      match skip with
      | S k => scan k (Some c) s'
      | O =>
          match match_at prev s with
          | Some m => m :: scan (String.length m - 1) (Some c) s'
          | None => scan 0 (Some c) s'
          end
      end
  end.

Definition findall_words (s : string) : list string := scan 0 None s.

End Re.

(** ** Keyword extraction *)

Definition stop_words : gset string :=
  {[ "the"; "a"; "an"; "and"; "or"; "but"; "in"; "on"; "at"; "to"; "for";
     "of"; "with"; "by"; "is"; "are"; "was"; "were"; "be"; "been"; "have";
     "has"; "had"; "will"; "would"; "could"; "should"; "may"; "might";
     "can"; "i"; "you"; "he"; "she"; "it"; "we"; "they"; "my"; "your";
     "his"; "her"; "our"; "their" ]}.

Definition extract_keywords (text : string) : list string :=
  let words := Re.findall_words (Str.lower text) in
  filter (λ word, (3 < String.length word)%nat ∧ word ∉ stop_words) words.

(** ** The triage system and its state *)

Record ProcessedEmail := {
  timestamp : string;
  sender : string;
  subject : string;
  category : string;
  summary : string;
  keywords : list string;
  channel : string
}.

Record EmailTriageSystem := {
  categories : list string;
  processed_emails : list ProcessedEmail
}.

(** [__init__] *)
Definition init : EmailTriageSystem :=
  {| categories := ["Product Support"; "Billing"; "General Inquiry"];
     processed_emails := [] |}.

(** A system as [__init__] leaves [categories], holding the log [log]. *)
Definition with_log (log : list ProcessedEmail) : EmailTriageSystem :=
  {| categories := categories init; processed_emails := log |}.

(** Methods run in a state-and-error monad over the system: an exception
    leaves the state as it was when raised. *)
Inductive exn := KeyError (key : string).

Definition M (A : Type) : Type :=
  EmailTriageSystem → (exn + A) * EmailTriageSystem.

Definition ret {A} (a : A) : M A := λ self, (inr a, self).

Definition raise {A} (e : exn) : M A := λ self, (inl e, self).

Definition bind {A B} (m : M A) (k : A → M B) : M B :=
  λ self,
    match m self with
    | (inr a, self') => k a self'
    | (inl e, self') => (inl e, self')
    end.

#[global] Instance M_ret : MRet M := @ret.
#[global] Instance M_bind : MBind M := λ A B k m, bind m k.

(** [d[key]] on a dictionary *)
Definition getitem (d : gmap string string) (key : string) : M string :=
  match d !! key with
  | Some v => ret v
  | None => raise (KeyError key)
  end.

(** [self.processed_emails.append(e)] *)
Definition append_processed (e : ProcessedEmail) : M unit :=
  λ self,
    (inr (),
     {| categories := categories self;
        processed_emails := processed_emails self ++ [e] |}).

(** [process_email]; [now] is what [datetime.now().isoformat()] returns
    during the call. *)
Definition process_email (now : string) (email_data : gmap string string)
  : M ProcessedEmail :=
  sender ← getitem email_data "sender";
  subject ← getitem email_data "subject";
  content ← getitem email_data "content";
  let full_content := subject +:+ " " +:+ content in
  let '(category, summary) :=
    classify_and_summarize_email full_content sender in
  let keywords := extract_keywords full_content in
  let processed_email :=
    {| timestamp := now;
       sender := sender;
       subject := subject;
       category := category;
       summary := summary;
       keywords := keywords;
       channel := "#" +:+ Str.replace " " "-" (Str.lower category) |} in
  append_processed processed_email;;
  mret processed_email.

(** ** Keyword analytics *)

(** [Counter]: a dictionary from word to count that keeps its keys in the
    order of their first insertion. *)
Fixpoint counter_incr (word : string) (c : list (string * nat))
  : list (string * nat) :=
  match c with
  | [] => [(word, 1)]
  | (w, n) :: c' =>
      if String.eqb w word then (w, S n) :: c'
      else (w, n) :: counter_incr word c'
  end.

Definition Counter (words : list string) : list (string * nat) :=
  foldl (λ c word, counter_incr word c) [] words.

(** [most_common(n)] is [heapq.nlargest(n, items, key=count)], which the
    library defines as [sorted(items, key=count, reverse=True)[:n]]; the
    sort is stable, items of equal count keeping their order. *)
Fixpoint insert_by_count (x : string * nat) (l : list (string * nat))
  : list (string * nat) :=
  match l with
  | [] => [x]
  | y :: l' => if (x.2 <? y.2)%nat then y :: insert_by_count x l' else x :: l
  end.

Definition sorted_by_count_desc (items : list (string * nat))
  : list (string * nat) :=
  foldr insert_by_count [] items.

Definition most_common (n : nat) (c : list (string * nat))
  : list (string * nat) :=
  take n (sorted_by_count_desc c).

Definition top_keywords_of (cat : string) (log : list ProcessedEmail)
  : list string :=
  let category_emails := filter (λ email, category email = cat) log in
  let all_keywords :=
    foldl (λ acc email, acc ++ keywords email) [] category_emails in
  let keyword_counts := Counter all_keywords in
  (most_common 5 keyword_counts).*1.

Definition generate_keyword_analytics (self : EmailTriageSystem)
  : gmap string (list string) :=
  foldl (λ analytics cat,
           <[cat := top_keywords_of cat (processed_emails self)]> analytics)
        ∅ (categories self).

(** ** The CSV sink *)

(** A written CSV file is the list of its rows, each the list of its
    fields; the quoting of the bytes on disk is not modelled.  The file
    system maps a path to the file there, and opening a path for writing is
    taken to succeed. *)

Definition fieldnames : list string :=
  ["timestamp"; "sender"; "subject"; "category"; "summary"; "keywords";
   "channel"].

(** [email.copy()] with [keywords] replaced by the joined string. *)
Definition email_copy (email : ProcessedEmail) : gmap string string :=
  <["keywords" := Str.join ", " (keywords email)]>
    (list_to_map
       [("timestamp", timestamp email); ("sender", sender email);
        ("subject", subject email); ("category", category email);
        ("summary", summary email); ("channel", channel email)]).

(** [DictWriter.writerow]: the fields of the row in [fieldnames] order. *)
Definition writerow (rowdict : gmap string string) : list string :=
  (λ key, default "" (rowdict !! key)) <$> fieldnames.

Definition save_to_csv (self : EmailTriageSystem) (filename : string)
  (fs : gmap string (list (list string))) : gmap string (list (list string)) :=
  match processed_emails self with
  | [] => fs
  | _ =>
      <[filename :=
          fieldnames :: ((λ email, writerow (email_copy email))
                           <$> processed_emails self)]> fs
  end.

(** ** The JSON sink *)

(** A written JSON file is the document it holds; indentation and the
    escaping of the bytes on disk are not modelled.  A processed email is
    an object with its seven keys in the order [process_email] inserts
    them, [keywords] being an array of strings. *)
#[local] Set Warnings "-register-all".

Inductive json :=
  | JString (s : string)
  | JArray (items : list json)
  | JObject (fields : list (string * json)).

(** What [json.dump] makes of one record of the log. *)
Definition email_to_json (email : ProcessedEmail) : json :=
  JObject
    [("timestamp", JString (timestamp email));
     ("sender", JString (sender email));
     ("subject", JString (subject email));
     ("category", JString (category email));
     ("summary", JString (summary email));
     ("keywords", JArray (JString <$> keywords email));
     ("channel", JString (channel email))].

Definition save_to_json (self : EmailTriageSystem) (filename : string)
  (fs : gmap string json) : gmap string json :=
  <[filename := JArray (email_to_json <$> processed_emails self)]> fs.

(** ** Notions the specification is worded in *)

(** [w] occurs in [s] as a substring. *)
Definition substring_of (w s : string) : Prop :=
  ∃ pre post, s = pre +:+ w +:+ post.

(** [seg] is the segment of [s] before the first occurrence of the
    character [sep], or all of [s] when there is none. *)
Definition segment_before_first (sep : ascii) (s seg : string) : Prop :=
  ¬ substring_of (String sep EmptyString) seg
  ∧ (s = seg ∨ ∃ rest, s = seg +:+ String sep rest).

(** [p] is the first [n] characters of [s], all of [s] when it is
    shorter. *)
Definition first_chars (n : nat) (s p : string) : Prop :=
  (∃ rest, s = p +:+ rest) ∧ String.length p = n `min` String.length s.

(** The text cut at every character that is not a letter.  Each piece is
    a run of letters, empty when two separators are adjacent, together with
    the character before it and the character after it, [None] at the two
    ends of the text; [prev] is the character before [s]. *)
Fixpoint pieces (prev : option ascii) (s : string)
  : list (option ascii * string * option ascii) :=
  match s with
  | EmptyString => [(prev, EmptyString, None)]
  | String c s' =>
      if Char.is_letter c then
        match pieces prev s' with
        | (p, r, n) :: tl => (p, String c r, n) :: tl
        | [] => []
        end
      else (prev, EmptyString, Some c) :: pieces (Some c) s'
  end.

Definition run_of (p : option ascii * string * option ascii) : string := p.1.2.

(** The maximal runs of letters of [s], every other character being a
    separator. *)
Definition letter_runs (s : string) : list string :=
  filter (λ r, r ≠ "") (run_of <$> pieces None s).

(** A run with a word boundary on both sides: neither neighbour is a word
    character (a letter, a digit, the underscore, an alphanumeric Latin-1
    character). *)
Definition delimited (p : option ascii * string * option ascii) : Prop :=
  run_of p ≠ "" ∧ Re.word_at p.1.1 = false ∧ Re.word_at p.2 = false.

#[global] Instance delimited_dec p : Decision (delimited p).
Proof. unfold delimited. apply _. Defined.

Definition delimited_runs_from (prev : option ascii) (s : string)
  : list string :=
  run_of <$> filter delimited (pieces prev s).

Definition delimited_letter_runs (s : string) : list string :=
  delimited_runs_from None s.

(** The pieces put back together with their separators. *)
Fixpoint glue (ps : list (option ascii * string * option ascii)) : string :=
  match ps with
  | [] => EmptyString
  | p :: tl =>
      run_of p
      +:+ match p.2 with Some c => String c EmptyString | None => EmptyString end
      +:+ glue tl
  end.

(** Every character of [s] satisfies [P]. *)
Fixpoint all_chars (P : ascii → bool) (s : string) : bool :=
  match s with
  | EmptyString => true
  | String c s' => P c && all_chars P s'
  end.

(** A raw email with the three fields [process_email] reads. *)
Definition well_formed (email_data : gmap string string) : Prop :=
  is_Some (email_data !! "sender") ∧ is_Some (email_data !! "subject")
  ∧ is_Some (email_data !! "content").

(** Two records that agree on every field but the timestamp. *)
Definition same_but_timestamp (a b : ProcessedEmail) : Prop :=
  sender a = sender b ∧ subject a = subject b ∧ category a = category b
  ∧ summary a = summary b ∧ keywords a = keywords b ∧ channel a = channel b.

(** The record [process_email] builds, as a function of the clock reading
    and the three fields read. *)
Definition record_of (now sender subject content : string) : ProcessedEmail :=
  let full_content := subject +:+ " " +:+ content in
  let cs := classify_and_summarize_email full_content sender in
  {| timestamp := now;
     sender := sender;
     subject := subject;
     category := cs.1;
     summary := cs.2;
     keywords := extract_keywords full_content;
     channel := "#" +:+ Str.replace " " "-" (Str.lower cs.1) |}.

(** The row of a processed email in the CSV file: its fields in column
    order, the keywords joined by a comma and a space. *)
Definition csv_row (e : ProcessedEmail) : list string :=
  [timestamp e; sender e; subject e; category e; summary e;
   Str.join ", " (keywords e); channel e].

(** The keywords of the emails of a category, concatenated in log order. *)
Definition category_keywords (cat : string) (log : list ProcessedEmail)
  : list string :=
  mjoin (keywords <$> filter (λ email, category email = cat) log).

(** How often [w] occurs in [l], and where it occurs first. *)
Definition occurrences (w : string) (l : list string) : nat :=
  length (filter (λ x, x = w) l).

Fixpoint first_index (w : string) (l : list string) : nat :=
  match l with
  | [] => 0
  | x :: l' => if decide (x = w) then 0 else S (first_index w l')
  end.

(** [a] ranks before [b] among the keywords [l]: it occurs more often, or
    as often and first earlier. *)
Definition ranks_before (l : list string) (a b : string) : Prop :=
  occurrences b l < occurrences a l
  ∨ (occurrences a l = occurrences b l ∧ first_index a l < first_index b l).

(** [c[w]] on a counter: the count stored for [w], 0 when there is none. *)
Fixpoint count_of (c : list (string * nat)) (w : string) : nat :=
  match c with
  | [] => 0
  | (x, n) :: c' => if String.eqb x w then n else count_of c' w
  end.

(** The order [sorted] puts items in: greater count first, and among equal
    counts the order [R0] the items came in. *)
Definition item_before (R0 : relation string) (x y : string * nat) : Prop :=
  y.2 < x.2 ∨ (x.2 = y.2 ∧ R0 x.1 y.1).

(** A log of three emails to try the analytics on: two of one category,
    with keywords of equal count that are not in alphabetical order. *)
Definition email_with (cat : string) (ks : list string) : ProcessedEmail :=
  {| timestamp := "2026-01-01T00:00:00"; sender := "a@x.com";
     subject := "Subject"; category := cat; summary := "Summary";
     keywords := ks; channel := "#channel" |}.

Definition sample_log : list ProcessedEmail :=
  [email_with "Billing" ["zebra"; "refund"; "apple"; "refund"];
   email_with "Product Support" ["crash"];
   email_with "Billing" ["mango"; "apple"; "zebra"; "kiwi"; "lemon"; "fig"]].

(** The systems a run can be in: the one [__init__] builds, and any
    system a call of [process_email] leaves behind, whether the call
    returns or raises. *)
Inductive reachable : EmailTriageSystem → Prop :=
  | reachable_init : reachable init
  | reachable_process now email_data self r self' :
      reachable self →
      process_email now email_data self = (r, self') →
      reachable self'.

(** What holds of every record the pipeline builds. *)
Definition pipeline_record (e : ProcessedEmail) : Prop :=
  (category e, channel e)
    ∈ [("Product Support", "#product-support"); ("Billing", "#billing");
       ("General Inquiry", "#general-inquiry")]
  ∧ Forall (λ w, 3 < String.length w ∧ (w ∉ stop_words)
                 ∧ all_chars Char.is_lower w = true)
           (keywords e).

(** A word that can stand in the joined keywords field of a CSV row
    without blurring where it ends: not empty and free of commas. *)
Definition csv_word (w : string) : Prop :=
  w ≠ "" ∧ all_chars (λ c, negb (Ascii.eqb c ","%char)) w = true.

(** What [join] puts after a first word: nothing, or the separator and the
    rest. *)
Definition join_rest (l : list string) : string :=
  match l with
  | [] => ""
  | _ => ", " +:+ Str.join ", " l
  end.

(** * Properties *)

(** ** Strings *)

Section StrFacts.

Lemma append_nil_l (s : string) : "" +:+ s = s.
Proof. reflexivity. Qed.

Lemma append_cons (c : ascii) (s t : string) :
  String c s +:+ t = String c (s +:+ t).
Proof. reflexivity. Qed.

Lemma append_nil_r (s : string) : s +:+ "" = s.
Proof.
  induction s as [|c s IH]; [done|]. by rewrite append_cons, IH.
Qed.

Lemma append_assoc (a b c : string) : (a +:+ b) +:+ c = a +:+ b +:+ c.
Proof.
  induction a as [|x a IH]; [done|]. by rewrite !append_cons, IH.
Qed.

Lemma append_length (a b : string) :
  String.length (a +:+ b) = String.length a + String.length b.
Proof.
  induction a as [|x a IH]; [done|]. rewrite append_cons. simpl. by rewrite IH.
Qed.

(** An equation [String c s = pre +:+ rest] read by cases on [pre]. *)
Lemma cons_eq_append (c : ascii) (s pre rest : string) :
  String c s = pre +:+ rest →
  (pre = "" ∧ rest = String c s)
  ∨ (∃ pre', pre = String c pre' ∧ s = pre' +:+ rest).
Proof.
  destruct pre as [|x pre]; [left; by rewrite append_nil_l in *|].
  rewrite append_cons. intros [= -> ->]. right. by exists pre.
Qed.

Lemma nil_eq_append (pre rest : string) :
  "" = pre +:+ rest → pre = "" ∧ rest = "".
Proof. destruct pre; [by rewrite append_nil_l | by rewrite append_cons]. Qed.

Lemma startswith_spec (w s : string) :
  Str.startswith w s = true ↔ ∃ post, s = w +:+ post.
Proof.
  revert s; induction w as [|a w IH]; intros s; simpl.
  - split; [intros _; by exists s | done].
  - destruct s as [|b s].
    + split; [done | intros [post H]; by rewrite append_cons in H].
    + rewrite andb_true_iff, IH, Ascii.eqb_eq. split.
      * intros [-> [post ->]]. by exists post.
      * intros [post H]. rewrite append_cons in H. injection H as -> ->.
        split; [done | by exists post].
Qed.

Lemma contains_spec (w s : string) :
  Str.contains w s = true ↔ substring_of w s.
Proof.
  unfold substring_of. induction s as [|c s IH]; simpl.
  - rewrite startswith_spec. split.
    + intros [post H]. by exists "", post.
    + intros (pre & post & H). apply nil_eq_append in H as [_ H].
      by exists post.
  - rewrite orb_true_iff, IH, startswith_spec. split.
    + intros [[post H] | (pre & post & ->)].
      * by exists "", post.
      * by exists (String c pre), post.
    + intros (pre & post & H).
      apply cons_eq_append in H as [[_ H] | (pre' & _ & H)].
      * left. by exists post.
      * right. by exists pre', post.
Qed.

Lemma any_in_spec (words : list string) (s : string) :
  any_in words s = true ↔ ∃ w, In w words ∧ substring_of w s.
Proof.
  unfold any_in. rewrite existsb_exists.
  split; intros (w & Hin & H); exists w; split; try done;
    by apply contains_spec.
Qed.

Lemma char_not_in_nil (c : ascii) : ¬ substring_of (String c "") "".
Proof.
  intros (pre & post & H). apply nil_eq_append in H as [_ H].
  by rewrite append_cons in H.
Qed.

Lemma char_not_in_cons (c x : ascii) (s : string) :
  x ≠ c → ¬ substring_of (String c "") s →
  ¬ substring_of (String c "") (String x s).
Proof.
  intros Hne Hno (pre & post & H).
  apply cons_eq_append in H as [[_ H] | (pre' & _ & H)].
  - rewrite append_cons in H. by injection H as ->.
  - apply Hno. by exists pre', post.
Qed.

(** [split] always returns a first segment, so [[0]] never fails. *)
Lemma split_nonempty (sep : ascii) (s : string) : Str.split sep s ≠ [].
Proof.
  destruct s as [|c s]; simpl; [done|].
  destruct (Ascii.eqb c sep); [done|]. by destruct (Str.split sep s).
Qed.

Lemma split_first_segment (sep : ascii) (s : string) :
  segment_before_first sep s (Str.first (Str.split sep s)).
Proof.
  unfold segment_before_first. induction s as [|c s [IHno IHseg]]; simpl.
  - split; [apply char_not_in_nil | by left].
  - destruct (Ascii.eqb_spec c sep) as [->|Hne]; simpl.
    + split; [apply char_not_in_nil | right; by exists s].
    + destruct (Str.split sep s) as [|seg segs]; simpl in *.
      * split; [by apply char_not_in_cons|].
        destruct IHseg as [->|[rest ->]]; [by left | right; by exists rest].
      * split; [by apply char_not_in_cons|].
        destruct IHseg as [->|[rest ->]]; [by left | right; by exists rest].
Qed.

Lemma slice_to_first_chars (n : nat) (s : string) :
  first_chars n s (Str.slice_to n s).
Proof.
  unfold first_chars. revert s; induction n as [|n IH]; intros s; simpl.
  - split; [by exists s | done].
  - destruct s as [|c s]; simpl.
    + split; [by exists "" | done].
    + destruct (IH s) as [[rest Hrest] Hlen]. split.
      * exists rest. by rewrite append_cons, <- Hrest.
      * by rewrite Hlen.
Qed.

End StrFacts.

(** ** Classifier *)

(** C1: a text whose lowercased form contains a Product-Support keyword and
    a Billing keyword as substrings is classified "Product Support". *)
Theorem product_support_has_priority (text sender : string) :
  (∃ w, In w ["bug"; "error"; "not working"; "broken"; "crash"; "issue";
              "problem"; "feature"; "how to"]
        ∧ substring_of w (Str.lower text)) →
  (∃ w, In w ["bill"; "payment"; "charge"; "invoice"; "refund";
              "subscription"; "pricing"; "cost"]
        ∧ substring_of w (Str.lower text)) →
  (classify_and_summarize_email text sender).1 = "Product Support"
  ∧ (classify_and_summarize_email text sender).1 ≠ "Billing".
Proof.
  intros Hps _.
  assert (any_in product_support_words (Str.lower text) = true) as Hany
    by (by apply any_in_spec).
  unfold classify_and_summarize_email, classify; cbn [fst]. by rewrite Hany.
Qed.

Lemma product_support_has_priority_witness :
  (classify_and_summarize_email "Found a BUG, want a Refund" "a@x.com").1
    = "Product Support"
  ∧ (classify_and_summarize_email "Found a BUG, want a Refund" "a@x.com").1
    ≠ "Billing".
Proof.
  apply (product_support_has_priority "Found a BUG, want a Refund" "a@x.com").
  - exists "bug". split; [simpl; tauto | by exists "found a ", ", want a refund"].
  - exists "refund". split; [simpl; tauto | by exists "found a bug, want a ", ""].
Defined.

(** ** Summarizer *)

(** C7: the summary is the fixed template around the sender, the lowercased
    category and the first 100 characters of the segment of the text before
    its first full stop, that segment being the whole text when the text
    has no full stop. *)
Theorem summary_is_template (text sender : string) :
  ∃ seg s,
    segment_before_first "." text seg
    ∧ first_chars 100 seg s
    ∧ (classify_and_summarize_email text sender).2
      = "Customer " +:+ sender +:+ " needs help with "
        +:+ Str.lower (classify_and_summarize_email text sender).1
        +:+ ": " +:+ s +:+ "..."
    ∧ (¬ substring_of "." text → seg = text).
Proof.
  exists (Str.first (Str.split "." text)),
         (Str.slice_to 100 (Str.first (Str.split "." text))).
  pose proof (split_first_segment "." text) as Hseg.
  split_and!; [done | apply slice_to_first_chars | done |].
  intros Hno. destruct Hseg as [_ [Heq|[rest Hrest]]]; [by symmetry|].
  exfalso. apply Hno. by eexists _, rest.
Qed.

(** ** Tokenizer *)

Section Tokens.

Lemma letter_is_word (c : ascii) : Char.is_letter c = true → Char.is_word c = true.
Proof. unfold Char.is_word. by intros ->. Qed.

Lemma letter_not_digit (c : ascii) :
  Char.is_letter c = true → Char.is_digit c = false.
Proof.
  unfold Char.is_letter, Char.is_digit, Char.is_lower, Char.is_upper,
    Char.in_range.
  generalize (Char.code c); intros k.
  rewrite orb_true_iff, !andb_true_iff, andb_false_iff, !N.leb_le, !N.leb_gt.
  lia.
Qed.

(** The head piece carries the character before the text and nothing else
    of it. *)
Lemma pieces_shape (s : string) :
  ∃ r n tl, ∀ q, pieces q s = (q, r, n) :: tl.
Proof.
  induction s as [|c s (r & n & tl & IH)]; simpl.
  - by eexists _, _, _.
  - destruct (Char.is_letter c).
    + exists (String c r), n, tl. intros q. by rewrite IH.
    + by eexists _, _, _.
Qed.

Lemma pieces_letter (c : ascii) (s r : string) n tl :
  Char.is_letter c = true →
  (∀ q, pieces q s = (q, r, n) :: tl) →
  ∀ q, pieces q (String c s) = (q, String c r, n) :: tl.
Proof. intros Hc H q. simpl. by rewrite Hc, H. Qed.

Lemma pieces_unique (s r r' : string) n n' tl tl' :
  (∀ q, pieces q s = (q, r, n) :: tl) →
  (∀ q, pieces q s = (q, r', n') :: tl') →
  r = r' ∧ n = n' ∧ tl = tl'.
Proof.
  intros H H'. specialize (H None). rewrite H' in H. by injection H as -> -> ->.
Qed.

(** Backtracking gives letters back in vain: the greedy run is the only
    candidate, and it matches when the character after it is no word
    character. *)
Lemma letters_then_boundary_spec (c : ascii) (s r : string) n tl :
  Char.is_letter c = true →
  (∀ q, pieces q s = (q, r, n) :: tl) →
  Re.letters_then_boundary c s = if Re.word_at n then None else Some r.
Proof.
  revert c r n tl. induction s as [|x s IH]; intros c r n tl Hc Hp.
  - specialize (Hp None). simpl in Hp. injection Hp as <- <-.
    simpl. unfold Re.boundary. simpl. by rewrite (letter_is_word c Hc).
  - simpl. unfold Re.boundary. simpl. rewrite (letter_is_word c Hc).
    destruct (Char.is_letter x) eqn:Hx.
    + destruct (pieces_shape s) as (r' & n' & tl' & Hs).
      destruct (pieces_unique _ _ _ _ _ _ _ Hp (pieces_letter x s r' n' tl' Hx Hs))
        as (-> & -> & ->).
      rewrite (IH x r' n' tl' Hx Hs), (letter_is_word x Hx).
      by destruct (Re.word_at n').
    + specialize (Hp None). simpl in Hp. rewrite Hx in Hp.
      injection Hp as <- <- _. simpl. by destruct (Char.is_word x).
Qed.

Lemma delimited_head_word q r n tl :
  Re.word_at q = true → filter delimited ((q, r, n) :: tl) = filter delimited tl.
Proof.
  intros Hq. apply filter_cons_False. unfold delimited. simpl.
  rewrite Hq. by intros (_ & ? & _).
Qed.

Lemma delimited_head_empty q n tl :
  filter delimited ((q, "", n) :: tl) = filter delimited tl.
Proof. apply filter_cons_False. unfold delimited, run_of. by intros [? _]. Qed.

(** The scan agrees with the cut into pieces; resuming after a match skips
    exactly the head run. *)
Lemma scan_pieces (s : string) :
  (∀ prev, Re.scan 0 prev s = delimited_runs_from prev s)
  ∧ (∀ r n tl, (∀ q, pieces q s = (q, r, n) :: tl) →
       ∀ prev, Re.scan (String.length r) prev s = run_of <$> filter delimited tl).
Proof.
  unfold delimited_runs_from.
  induction s as [|c s [IH0 IHskip]].
  - split; [intros prev; cbn [Re.scan pieces]; by rewrite delimited_head_empty|].
    intros r n tl Hp prev. specialize (Hp None). simpl in Hp.
    by injection Hp as <- <- <-.
  - destruct (pieces_shape s) as (r' & n' & tl' & Hs).
    assert (∀ prev, Re.scan 0 prev (String c s)
                    = run_of <$> filter delimited (pieces prev (String c s)))
      as H0.
    { intros prev. destruct (Char.is_letter c) eqn:Hc.
      - rewrite (pieces_letter c s r' n' tl' Hc Hs).
        cbn [Re.scan Re.match_at]. rewrite Hc, andb_true_r.
        unfold Re.boundary. cbn [Re.word_at].
        rewrite (letter_is_word c Hc), xorb_true_r.
        destruct (Re.word_at prev) eqn:Hprev; cbn [negb].
        + rewrite IH0, Hs, !delimited_head_word; try done.
          by apply letter_is_word.
        + rewrite (letters_then_boundary_spec c s r' n' tl' Hc Hs).
          destruct (Re.word_at n') eqn:Hn.
          * rewrite IH0, Hs, delimited_head_word
              by (by apply letter_is_word).
            rewrite filter_cons_False; [done|].
            unfold delimited. simpl. rewrite Hn. by intros (_ & _ & ?).
          * rewrite filter_cons_True by done.
            cbn [String.length].
            replace (S (String.length r') - 1) with (String.length r') by lia.
            rewrite fmap_cons. f_equal.
            by apply (IHskip r' n' tl' Hs).
      - cbn [Re.scan Re.match_at pieces].
        rewrite Hc, andb_false_r, delimited_head_empty. apply IH0. }
    split; [done|].
    intros r n tl Hp prev. destruct (Char.is_letter c) eqn:Hc.
    + destruct (pieces_unique _ _ _ _ _ _ _ Hp (pieces_letter c s r' n' tl' Hc Hs))
        as (-> & -> & ->).
      cbn [String.length Re.scan]. by apply (IHskip r' n' tl' Hs).
    + pose proof (Hp prev) as Hp'. cbn [pieces] in Hp'. rewrite Hc in Hp'.
      injection Hp' as <- <- <-.
      cbn [String.length]. rewrite H0. cbn [pieces]. rewrite Hc.
      by rewrite delimited_head_empty.
Qed.

Lemma findall_words_runs (s : string) :
  Re.findall_words s = delimited_letter_runs s.
Proof. apply scan_pieces. Qed.

Lemma pieces_runs_letters (s : string) prev :
  Forall (λ p, all_chars Char.is_letter (run_of p) = true) (pieces prev s).
Proof.
  revert prev. induction s as [|c s IH]; intros prev; simpl.
  - by constructor.
  - destruct (Char.is_letter c) eqn:Hc.
    + specialize (IH prev). destruct (pieces prev s) as [|[[p r] n] tl]; [done|].
      inversion IH as [|? ? Hhd Htl]; subst. constructor; [|done].
      unfold run_of in *. simpl in *. by rewrite Hc.
    + constructor; [done | apply IH].
Qed.

Lemma all_chars_impl (P Q : ascii → bool) (s : string) :
  (∀ c, P c = true → Q c = true) →
  all_chars P s = true → all_chars Q s = true.
Proof.
  intros HPQ. induction s as [|c s IH]; simpl; [done|].
  rewrite !andb_true_iff. intros [Hc Hs]. split; [by apply HPQ | by apply IH].
Qed.

Lemma findall_words_letters (s : string) :
  Forall (λ w, all_chars (λ c, Char.is_letter c && negb (Char.is_digit c)) w = true)
         (Re.findall_words s).
Proof.
  rewrite findall_words_runs. unfold delimited_letter_runs, delimited_runs_from.
  apply Forall_fmap, Forall_forall. intros p Hp.
  apply list_elem_of_filter in Hp as [_ Hp].
  pose proof (pieces_runs_letters s None) as Hall.
  rewrite Forall_forall in Hall. simpl.
  eapply all_chars_impl; [|by apply Hall].
  intros c Hc. by rewrite Hc, (letter_not_digit c Hc).
Qed.

(** The pieces are a cut of the text: glued they give it back, and every
    separator is a character that is not a letter. *)
Lemma pieces_glue (s : string) prev : glue (pieces prev s) = s.
Proof.
  revert prev. induction s as [|c s IH]; intros prev; [done|].
  cbn [pieces]. destruct (Char.is_letter c).
  - specialize (IH prev). destruct (pieces_shape s) as (r & n & tl & Hs).
    rewrite Hs in *. cbn [glue run_of fst snd] in *.
    by rewrite append_cons, IH.
  - cbn [glue run_of fst snd]. by rewrite IH.
Qed.

Lemma pieces_separators (s : string) prev :
  Forall (λ p, ∀ c, p.2 = Some c → Char.is_letter c = false) (pieces prev s).
Proof.
  revert prev. induction s as [|c s IH]; intros prev; cbn [pieces].
  - by constructor.
  - destruct (Char.is_letter c) eqn:Hc.
    + specialize (IH prev). destruct (pieces prev s) as [|[[p r] n] tl]; [done|].
      inversion IH as [|? ? Hhd Htl]; subst. by constructor.
    + constructor; [|apply IH]. simpl. intros ? [= <-]. exact Hc.
Qed.

End Tokens.

(** C2, as the code has it: the tokens are the maximal runs of letters of
    the lowercased text that have a word boundary on both sides, in text
    order; a run next to a digit, an underscore or another word character
    gives no token, so "abc123def" gives none; the keywords are these
    tokens filtered; no token contains a digit. *)
Theorem tokens_are_delimited_letter_runs (text : string) :
  Re.findall_words (Str.lower text) = delimited_letter_runs (Str.lower text)
  ∧ extract_keywords text
    = filter (λ word, 3 < String.length word ∧ word ∉ stop_words)
             (delimited_letter_runs (Str.lower text))
  ∧ Forall (λ w, all_chars (λ c, Char.is_letter c && negb (Char.is_digit c)) w
                 = true)
           (Re.findall_words (Str.lower text))
  ∧ Re.findall_words (Str.lower "abc123def") = [].
Proof.
  split_and!.
  - apply findall_words_runs.
  - unfold extract_keywords. by rewrite findall_words_runs.
  - apply findall_words_letters.
  - reflexivity.
Qed.

(** C2 as worded fails: the letter runs "abc" and "def" of "abc123def" are
    not tokens, and a run of four letters before a digit is no keyword. *)
Lemma letter_runs_not_all_tokens :
  letter_runs (Str.lower "abc123def") = ["abc"; "def"]
  ∧ Re.findall_words (Str.lower "abc123def") = []
  ∧ Re.findall_words (Str.lower "abc123def")
    ≠ letter_runs (Str.lower "abc123def")
  ∧ letter_runs (Str.lower "abcd1 efgh") = ["abcd"; "efgh"]
  ∧ extract_keywords "abcd1 efgh" = ["efgh"].
Proof. by vm_compute. Qed.

(** ** Keyword extraction *)

(** C4: every keyword returned is longer than three characters and is not
    a stop word. *)
Theorem keywords_long_and_not_stop_words (text : string) :
  Forall (λ w, 3 < String.length w ∧ w ∉ stop_words) (extract_keywords text).
Proof.
  apply Forall_forall. intros w Hw.
  by apply list_elem_of_filter in Hw as [Hw _].
Qed.

Example keywords_of_login_mail :
  extract_keywords "Login not working I can't log in. Error: invalid credentials."
  = ["login"; "working"; "error"; "invalid"; "credentials"].
Proof. by vm_compute. Qed.

(** ** The pipeline *)

Section Pipeline.

Lemma process_email_run now (email_data : gmap string string) self
    sender subject content :
  email_data !! "sender" = Some sender →
  email_data !! "subject" = Some subject →
  email_data !! "content" = Some content →
  process_email now email_data self
  = (inr (record_of now sender subject content),
     {| categories := categories self;
        processed_emails :=
          processed_emails self ++ [record_of now sender subject content] |}).
Proof.
  intros Hs Hj Hc.
  unfold process_email, mbind, M_bind, bind, getitem. by rewrite Hs, Hj, Hc.
Qed.

End Pipeline.

(** C8: when one of the fields 'sender', 'subject', 'content' is missing
    the call fails with the error of the missing key, no default stands in
    for it, and the system with its log is as before the call. *)
Theorem missing_field_fails now (email_data : gmap string string) self :
  email_data !! "sender" = None ∨ email_data !! "subject" = None
  ∨ email_data !! "content" = None →
  ∃ key, key ∈ ["sender"; "subject"; "content"]
         ∧ email_data !! key = None
         ∧ process_email now email_data self = (inl (KeyError key), self).
Proof.
  intros Hmiss.
  unfold process_email, mbind, M_bind, bind, getitem.
  destruct (email_data !! "sender") as [s|] eqn:Hs; simpl.
  - destruct (email_data !! "subject") as [j|] eqn:Hj; simpl.
    + destruct (email_data !! "content") as [c|] eqn:Hc; simpl.
      * by destruct Hmiss as [?|[?|?]].
      * exists "content". split_and!; [apply list_elem_of_In; simpl; tauto | done..].
    + exists "subject". split_and!; [apply list_elem_of_In; simpl; tauto | done..].
  - exists "sender". split_and!; [apply list_elem_of_In; simpl; tauto | done..].
Qed.

Lemma missing_field_fails_witness :
  ∃ key, key ∈ ["sender"; "subject"; "content"]
         ∧ ({[ "sender" := "a@x.com"; "subject" := "Hello" ]}
              : gmap string string) !! key = None
         ∧ process_email "2026-01-01T00:00:00"
             {[ "sender" := "a@x.com"; "subject" := "Hello" ]} init
           = (inl (KeyError key), init).
Proof.
  apply (missing_field_fails "2026-01-01T00:00:00"
           {[ "sender" := "a@x.com"; "subject" := "Hello" ]} init).
  right. right. reflexivity.
Defined.

(** C9: on a well-formed email the call returns a record, and the log
    afterwards is the log before with that one record appended: it is one
    longer and every earlier entry is where and what it was. *)
Theorem process_email_appends now (email_data : gmap string string) self :
  well_formed email_data →
  ∃ e self',
    process_email now email_data self = (inr e, self')
    ∧ processed_emails self' = processed_emails self ++ [e]
    ∧ length (processed_emails self') = S (length (processed_emails self))
    ∧ (∀ i, i < length (processed_emails self) →
            processed_emails self' !! i = processed_emails self !! i)
    ∧ categories self' = categories self.
Proof.
  intros ([s Hs] & [j Hj] & [c Hc]).
  eexists _, _. split; [by apply process_email_run|]. simpl.
  split_and!; [done | | | done].
  - rewrite length_app. simpl. lia.
  - intros i Hi. by apply lookup_app_l.
Qed.

Lemma process_email_appends_witness :
  ∃ e self',
    process_email "2026-01-01T00:00:00"
      {[ "sender" := "a@x.com"; "subject" := "Hello"; "content" := "Hi." ]}
      init = (inr e, self')
    ∧ processed_emails self' = processed_emails init ++ [e]
    ∧ length (processed_emails self') = S (length (processed_emails init))
    ∧ (∀ i, i < length (processed_emails init) →
            processed_emails self' !! i = processed_emails init !! i)
    ∧ categories self' = categories init.
Proof.
  apply (process_email_appends "2026-01-01T00:00:00"
           {[ "sender" := "a@x.com"; "subject" := "Hello"; "content" := "Hi." ]}
           init).
  unfold well_formed. split_and!; eexists; reflexivity.
Defined.

(** C10: two calls on the same well-formed email, whatever the two systems
    and clock readings, both return a record, and the two records agree on
    sender, subject, category, summary, keywords and channel, each being a
    function of the three fields of the email. *)
Theorem process_email_deterministic (email_data : gmap string string)
    now1 now2 self1 self2 :
  well_formed email_data →
  ∃ sender subject content e1 e2 self1' self2',
    email_data !! "sender" = Some sender
    ∧ email_data !! "subject" = Some subject
    ∧ email_data !! "content" = Some content
    ∧ process_email now1 email_data self1 = (inr e1, self1')
    ∧ process_email now2 email_data self2 = (inr e2, self2')
    ∧ same_but_timestamp e1 e2
    ∧ same_but_timestamp e1 (record_of "" sender subject content).
Proof.
  intros ([s Hs] & [j Hj] & [c Hc]).
  exists s, j, c, (record_of now1 s j c), (record_of now2 s j c).
  eexists _, _. split_and!; [done | done | done | | | |].
  - by apply process_email_run.
  - by apply process_email_run.
  - by repeat split.
  - by repeat split.
Qed.

Lemma process_email_deterministic_witness :
  ∃ sender subject content e1 e2 self1' self2',
    ({[ "sender" := "a@x.com"; "subject" := "Hello"; "content" := "Hi." ]}
       : gmap string string) !! "sender" = Some sender
    ∧ ({[ "sender" := "a@x.com"; "subject" := "Hello"; "content" := "Hi." ]}
         : gmap string string) !! "subject" = Some subject
    ∧ ({[ "sender" := "a@x.com"; "subject" := "Hello"; "content" := "Hi." ]}
         : gmap string string) !! "content" = Some content
    ∧ process_email "2026-01-01T00:00:00"
        {[ "sender" := "a@x.com"; "subject" := "Hello"; "content" := "Hi." ]}
        init = (inr e1, self1')
    ∧ process_email "2026-01-02T00:00:00"
        {[ "sender" := "a@x.com"; "subject" := "Hello"; "content" := "Hi." ]}
        (with_log [record_of "2025-12-31T00:00:00" "b@y.org" "Bill" "Refund"])
      = (inr e2, self2')
    ∧ same_but_timestamp e1 e2
    ∧ same_but_timestamp e1 (record_of "" sender subject content).
Proof.
  apply (process_email_deterministic
           {[ "sender" := "a@x.com"; "subject" := "Hello"; "content" := "Hi." ]}
           "2026-01-01T00:00:00" "2026-01-02T00:00:00" init
           (with_log [record_of "2025-12-31T00:00:00" "b@y.org" "Bill" "Refund"])).
  unfold well_formed. split_and!; eexists; reflexivity.
Defined.

(** ** The CSV sink *)

Section Csv.

Lemma writerow_email_copy (e : ProcessedEmail) :
  writerow (email_copy e) = csv_row e.
Proof. reflexivity. Qed.

Lemma save_to_csv_empty_log self filename
    (fs : gmap string (list (list string))) :
  processed_emails self = [] → save_to_csv self filename fs = fs.
Proof. unfold save_to_csv. by intros ->. Qed.

Lemma save_to_csv_insert self filename
    (fs : gmap string (list (list string))) :
  processed_emails self ≠ [] →
  save_to_csv self filename fs
  = <[filename := fieldnames :: (csv_row <$> processed_emails self)]> fs.
Proof.
  unfold save_to_csv. destruct (processed_emails self) as [|e log]; [done|].
  intros _. f_equal.
Qed.

End Csv.

(** C3, as the code has it: for a log that is not empty the file at the
    target path is afterwards the header row followed by one row per
    record in log order, keywords joined by ', ', whatever was there
    before, and no other path is touched; for the empty log the call
    returns at once and writes nothing. *)
Theorem save_to_csv_rows self filename
    (fs : gmap string (list (list string))) :
  (processed_emails self ≠ [] →
     save_to_csv self filename fs !! filename
     = Some (["timestamp"; "sender"; "subject"; "category"; "summary";
              "keywords"; "channel"]
             :: (csv_row <$> processed_emails self))
     ∧ ∀ other, other ≠ filename →
                save_to_csv self filename fs !! other = fs !! other)
  ∧ (processed_emails self = [] → save_to_csv self filename fs = fs).
Proof.
  split; [|apply save_to_csv_empty_log].
  intros Hne. rewrite save_to_csv_insert by done. split.
  - by rewrite lookup_insert_eq.
  - intros other Hother. by rewrite lookup_insert_ne.
Qed.

Lemma save_to_csv_rows_witness :
  save_to_csv
    (with_log [record_of "2026-01-01T00:00:00" "a@x.com" "Refund" "Refund my payment."])
    "log.csv" {[ "log.csv" := [["stale"]] ]} !! "log.csv"
  = Some [["timestamp"; "sender"; "subject"; "category"; "summary";
           "keywords"; "channel"];
          ["2026-01-01T00:00:00"; "a@x.com"; "Refund"; "Billing";
           "Customer a@x.com needs help with billing: Refund Refund my payment...";
           "refund, refund, payment"; "#billing"]]
  ∧ save_to_csv init "log.csv" {[ "log.csv" := [["stale"]] ]}
    = {[ "log.csv" := [["stale"]] ]}.
Proof.
  split.
  - apply (save_to_csv_rows
             (with_log [record_of "2026-01-01T00:00:00" "a@x.com" "Refund"
                          "Refund my payment."])
             "log.csv" {[ "log.csv" := [["stale"]] ]}).
    simpl. discriminate.
  - apply (save_to_csv_rows init "log.csv" {[ "log.csv" := [["stale"]] ]}).
    reflexivity.
Defined.

(** C3 as worded fails on the empty log: no header row is written, a file
    that was at the path stays, and none is created. *)
Lemma save_to_csv_empty_log_no_header :
  save_to_csv (with_log []) "log.csv" {[ "log.csv" := [["stale"]] ]}
    !! "log.csv"
  ≠ Some (fieldnames :: (csv_row <$> []))
  ∧ save_to_csv (with_log []) "log.csv" {[ "log.csv" := [["stale"]] ]}
      !! "log.csv"
    = Some [["stale"]]
  ∧ save_to_csv (with_log []) "log.csv" ∅ !! "log.csv" = None.
Proof. by vm_compute. Qed.

(** ** Keyword analytics *)

Section Analytics.

Lemma analytics_unfold (log : list ProcessedEmail) :
  generate_keyword_analytics (with_log log)
  = <["General Inquiry" := top_keywords_of "General Inquiry" log]>
      (<["Billing" := top_keywords_of "Billing" log]>
         (<["Product Support" := top_keywords_of "Product Support" log]> ∅)).
Proof. reflexivity. Qed.

Lemma analytics_lookup (log : list ProcessedEmail) (cat : string) :
  cat ∈ categories init →
  generate_keyword_analytics (with_log log) !! cat
  = Some (top_keywords_of cat log).
Proof.
  intros Hcat. rewrite analytics_unfold.
  apply list_elem_of_In in Hcat. simpl in Hcat.
  destruct Hcat as [<-|[<-|[<-|[]]]].
  - rewrite lookup_insert_ne by done. rewrite lookup_insert_ne by done.
    by rewrite lookup_insert_eq.
  - rewrite lookup_insert_ne by done. by rewrite lookup_insert_eq.
  - by rewrite lookup_insert_eq.
Qed.

Lemma top_keywords_of_no_email (log : list ProcessedEmail) (cat : string) :
  (∀ e, e ∈ log → category e ≠ cat) → top_keywords_of cat log = [].
Proof.
  intros Hno. unfold top_keywords_of.
  replace (filter (λ email, category email = cat) log) with (@nil ProcessedEmail);
    [done|].
  symmetry. induction log as [|e log IH]; [done|].
  rewrite filter_cons_False by (apply Hno; left).
  apply IH. intros e' He'. apply Hno. by right.
Qed.

Lemma foldl_keywords (es : list ProcessedEmail) (acc : list string) :
  foldl (λ acc email, acc ++ keywords email) acc es
  = acc ++ mjoin (keywords <$> es).
Proof.
  revert acc. induction es as [|e es IH]; intros acc; simpl.
  - by rewrite app_nil_r.
  - by rewrite IH, app_assoc.
Qed.

Lemma top_keywords_of_eq (cat : string) (log : list ProcessedEmail) :
  top_keywords_of cat log
  = take 5 (sorted_by_count_desc (Counter (category_keywords cat log))).*1.
Proof.
  unfold top_keywords_of, most_common, category_keywords.
  by rewrite foldl_keywords, fmap_take.
Qed.

(** *** The counter *)

Lemma Counter_snoc (ks : list string) (w : string) :
  Counter (ks ++ [w]) = counter_incr w (Counter ks).
Proof. unfold Counter. by rewrite foldl_app. Qed.

Lemma count_of_incr (c : list (string * nat)) (w x : string) :
  count_of (counter_incr w c) x
  = if decide (x = w) then S (count_of c x) else count_of c x.
Proof.
  induction c as [|[y n] c IH]; cbn [counter_incr count_of].
  - destruct (String.eqb_spec w x), (decide (x = w)); congruence.
  - destruct (String.eqb_spec y w) as [->|Hyw]; cbn [counter_incr count_of].
    + destruct (String.eqb_spec w x), (decide (x = w)); congruence.
    + destruct (String.eqb_spec y x) as [->|Hyx]; [|done].
      by rewrite decide_False.
Qed.

Lemma keys_incr (c : list (string * nat)) (w : string) :
  (counter_incr w c).*1 = if decide (w ∈ c.*1) then c.*1 else c.*1 ++ [w].
Proof.
  induction c as [|[y n] c IH]; cbn [counter_incr].
  - case_decide as Hin; [by apply elem_of_nil in Hin | done].
  - destruct (String.eqb_spec y w) as [->|Hyw]; rewrite !fmap_cons; cbn [fst].
    + rewrite decide_True; [done | by left].
    + rewrite IH. destruct (decide (w ∈ c.*1)) as [Hin|Hin].
      * rewrite decide_True; [done | by right].
      * rewrite decide_False; [done|]. by intros [->|?]%elem_of_cons.
Qed.

Lemma occurrences_snoc (ks : list string) (w x : string) :
  occurrences x (ks ++ [w])
  = if decide (x = w) then S (occurrences x ks) else occurrences x ks.
Proof.
  unfold occurrences. rewrite filter_app, length_app, filter_cons, filter_nil.
  destruct (decide (w = x)), (decide (x = w)); simpl; try congruence; lia.
Qed.

Lemma Counter_count (ks : list string) (x : string) :
  count_of (Counter ks) x = occurrences x ks.
Proof.
  induction ks as [|w ks IH] using rev_ind; [done|].
  by rewrite Counter_snoc, count_of_incr, occurrences_snoc, IH.
Qed.

Lemma Counter_keys (ks : list string) (x : string) :
  x ∈ (Counter ks).*1 ↔ x ∈ ks.
Proof.
  induction ks as [|w ks IH] using rev_ind; [done|].
  rewrite Counter_snoc, keys_incr, elem_of_app, list_elem_of_singleton.
  destruct (decide (w ∈ (Counter ks).*1)) as [Hin|Hin].
  - rewrite IH. split; [by left|]. intros [? | ->]; [done | by apply IH].
  - by rewrite elem_of_app, list_elem_of_singleton, IH.
Qed.

(** *** First occurrences *)

Lemma first_index_lt (x : string) (l : list string) :
  x ∈ l → first_index x l < length l.
Proof.
  induction l as [|y l IH]; simpl; [by intros ?%elem_of_nil|].
  intros Hin. destruct (decide (y = x)) as [->|Hne]; [lia|].
  apply elem_of_cons in Hin as [->|Hin]; [done|]. specialize (IH Hin). lia.
Qed.

Lemma first_index_app_l (x : string) (l k : list string) :
  x ∈ l → first_index x (l ++ k) = first_index x l.
Proof.
  induction l as [|y l IH]; simpl; [by intros ?%elem_of_nil|].
  intros Hin. destruct (decide (y = x)) as [->|Hne]; [done|].
  apply elem_of_cons in Hin as [->|Hin]; [done|]. by rewrite IH.
Qed.

Lemma first_index_fresh (x : string) (l : list string) :
  x ∉ l → first_index x (l ++ [x]) = length l.
Proof.
  induction l as [|y l IH]; simpl; intros Hnin.
  - by rewrite decide_True.
  - apply not_elem_of_cons in Hnin as [Hne Hnin].
    rewrite decide_False by done. by rewrite IH.
Qed.

Lemma StronglySorted_elem_impl {A} (R1 R2 : relation A) (l : list A) :
  (∀ x y, x ∈ l → y ∈ l → R1 x y → R2 x y) →
  StronglySorted R1 l → StronglySorted R2 l.
Proof.
  intros Himpl Hs. induction Hs as [|x l Hs IH Hall]; constructor.
  - apply IH. intros a b Ha Hb. apply Himpl; by right.
  - rewrite Forall_forall in *. intros y Hy.
    apply Himpl; [by left | by right | by apply Hall].
Qed.

Lemma StronglySorted_snoc {A} (R : relation A) (l : list A) (x : A) :
  StronglySorted R l → Forall (λ y, R y x) l → StronglySorted R (l ++ [x]).
Proof.
  intros Hs Hall. apply StronglySorted_app; split_and!.
  - intros a b Ha Hb. apply list_elem_of_singleton in Hb as ->.
    rewrite Forall_forall in Hall. by apply Hall.
  - done.
  - repeat constructor.
Qed.

Lemma StronglySorted_irrefl_NoDup {A} (R : relation A) (l : list A) :
  (∀ x, ¬ R x x) → StronglySorted R l → NoDup l.
Proof.
  intros Hirr Hs. induction Hs as [|x l Hs IH Hall]; constructor; [|done].
  intros Hin. rewrite Forall_forall in Hall. by apply (Hirr x), Hall.
Qed.

(** The keys of the counter stand in the order of their first
    occurrence. *)
Lemma Counter_keys_sorted (ks : list string) :
  StronglySorted (λ a b, first_index a ks < first_index b ks) (Counter ks).*1.
Proof.
  induction ks as [|w ks IH] using rev_ind; [constructor|].
  rewrite Counter_snoc, keys_incr.
  assert (StronglySorted
            (λ a b, first_index a (ks ++ [w]) < first_index b (ks ++ [w]))
            (Counter ks).*1) as Hold.
  { eapply StronglySorted_elem_impl; [|exact IH].
    intros a b Ha Hb.
    apply (proj1 (Counter_keys ks a)) in Ha.
    apply (proj1 (Counter_keys ks b)) in Hb.
    simpl. by rewrite !first_index_app_l. }
  destruct (decide (w ∈ (Counter ks).*1)) as [Hin|Hin]; [done|].
  apply StronglySorted_snoc; [done|].
  apply Forall_forall. intros a Ha. apply (proj1 (Counter_keys ks a)) in Ha.
  rewrite first_index_app_l by done.
  rewrite first_index_fresh by (by rewrite <- Counter_keys).
  by apply first_index_lt.
Qed.

Lemma Counter_keys_NoDup (ks : list string) : NoDup (Counter ks).*1.
Proof.
  eapply StronglySorted_irrefl_NoDup; [|apply Counter_keys_sorted].
  intros x. simpl. lia.
Qed.

Lemma count_of_member (c : list (string * nat)) (x : string) (n : nat) :
  NoDup c.*1 → (x, n) ∈ c → count_of c x = n.
Proof.
  induction c as [|[y m] c IH]; simpl; [by intros _ ?%elem_of_nil|].
  intros [Hnin Hnd]%NoDup_cons [[= -> ->]|Hin]%elem_of_cons.
  - by rewrite String.eqb_refl.
  - destruct (String.eqb_spec y x) as [->|Hne]; [|by apply IH].
    exfalso. apply Hnin. apply list_elem_of_fmap. by exists (x, n).
Qed.

Lemma Counter_member (ks : list string) (x : string) (n : nat) :
  (x, n) ∈ Counter ks → n = occurrences x ks ∧ x ∈ ks.
Proof.
  intros Hin. split.
  - rewrite <- Counter_count. symmetry.
    apply count_of_member; [apply Counter_keys_NoDup | done].
  - apply Counter_keys. apply list_elem_of_fmap. by exists (x, n).
Qed.

(** *** The stable sort by descending count *)

Lemma insert_by_count_perm (x : string * nat) (l : list (string * nat)) :
  insert_by_count x l ≡ₚ x :: l.
Proof.
  induction l as [|y l IH]; simpl; [done|].
  destruct (x.2 <? y.2); [|done]. by rewrite IH, Permutation_swap.
Qed.

Lemma sorted_by_count_desc_perm (c : list (string * nat)) :
  sorted_by_count_desc c ≡ₚ c.
Proof.
  induction c as [|x c IH]; simpl; [done|].
  by rewrite insert_by_count_perm, IH.
Qed.

Lemma insert_by_count_sorted (R0 : relation string) x l :
  StronglySorted (item_before R0) l →
  Forall (λ y, R0 x.1 y.1) l →
  StronglySorted (item_before R0) (insert_by_count x l).
Proof.
  induction l as [|y l IH]; intros Hs Hf; simpl.
  - repeat constructor.
  - apply StronglySorted_inv in Hs as [Hs Hy].
    apply Forall_cons in Hf as [Hxy Hf].
    destruct (Nat.ltb_spec x.2 y.2) as [Hlt|Hge].
    + constructor; [by apply IH|].
      rewrite insert_by_count_perm. constructor; [by left | done].
    + constructor; [by constructor|]. constructor.
      * unfold item_before. destruct (decide (y.2 < x.2)); [by left|].
        right. split; [lia | done].
      * rewrite Forall_forall in *. intros z Hz.
        specialize (Hy z Hz). specialize (Hf z Hz). unfold item_before in *.
        destruct (decide (z.2 < x.2)); [by left|].
        right. split; [lia | done].
Qed.

Lemma sorted_by_count_desc_sorted (R0 : relation string) c :
  StronglySorted (λ x y, R0 x.1 y.1) c →
  StronglySorted (item_before R0) (sorted_by_count_desc c).
Proof.
  induction 1 as [|x c Hs IH Hall]; simpl; [constructor|].
  apply insert_by_count_sorted; [done|].
  by rewrite sorted_by_count_desc_perm.
Qed.

Lemma StronglySorted_fst (R0 : relation string) (c : list (string * nat)) :
  StronglySorted R0 c.*1 → StronglySorted (λ x y, R0 x.1 y.1) c.
Proof.
  induction c as [|x c IH]; simpl; [constructor|].
  intros [Hs Hall]%StronglySorted_inv. constructor; [by apply IH|].
  by rewrite Forall_fmap in Hall.
Qed.

(** The keys of the sorted counter are the distinct keywords in rank
    order. *)
Lemma ranking_of_keywords (ks : list string) :
  let ranking := (sorted_by_count_desc (Counter ks)).*1 in
  NoDup ranking
  ∧ (∀ w, w ∈ ranking ↔ w ∈ ks)
  ∧ StronglySorted (ranks_before ks) ranking.
Proof.
  simpl. split_and!.
  - rewrite sorted_by_count_desc_perm. apply Counter_keys_NoDup.
  - intros w. rewrite sorted_by_count_desc_perm. apply Counter_keys.
  - pose proof (sorted_by_count_desc_sorted _ _
                  (StronglySorted_fst _ _ (Counter_keys_sorted ks))) as Hs.
    assert (∀ x, x ∈ sorted_by_count_desc (Counter ks) →
                 x.2 = occurrences x.1 ks) as Hcount.
    { intros [x n] Hx. rewrite sorted_by_count_desc_perm in Hx.
      by apply Counter_member in Hx as [-> _]. }
    revert Hs Hcount. generalize (sorted_by_count_desc (Counter ks)).
    intros l Hs. induction Hs as [|x l Hs IH Hall]; intros Hcount; csimpl.
    + constructor.
    + constructor.
      * apply IH. intros y Hy. apply Hcount. by right.
      * rewrite Forall_fmap, Forall_forall in *. intros y Hy. simpl.
        specialize (Hall y Hy). unfold item_before, ranks_before in *.
        rewrite <- (Hcount x) by (by left).
        rewrite <- (Hcount y) by (by right). done.
Qed.

End Analytics.

(** C6: the analytics mapping has exactly the keys "Product Support",
    "Billing" and "General Inquiry", whatever the log, and a category none
    of whose emails is in the log maps to the empty list. *)
Theorem analytics_has_three_keys (log : list ProcessedEmail) :
  dom (generate_keyword_analytics (with_log log))
  = {[ "Product Support"; "Billing"; "General Inquiry" ]}
  ∧ ∀ cat, cat ∈ ["Product Support"; "Billing"; "General Inquiry"] →
           (∀ e, e ∈ log → category e ≠ cat) →
           generate_keyword_analytics (with_log log) !! cat = Some [].
Proof.
  split.
  - rewrite analytics_unfold, !dom_insert_L, dom_empty_L. set_solver.
  - intros cat Hcat Hno.
    by rewrite analytics_lookup, top_keywords_of_no_email.
Qed.

Lemma analytics_has_three_keys_witness :
  generate_keyword_analytics
    (with_log [record_of "2026-01-01T00:00:00" "a@x.com" "Refund" "Refund my payment."])
    !! "General Inquiry"
  = Some [].
Proof.
  apply (analytics_has_three_keys
           [record_of "2026-01-01T00:00:00" "a@x.com" "Refund" "Refund my payment."]).
  - apply list_elem_of_In. simpl. tauto.
  - intros e He. apply list_elem_of_In in He. simpl in He.
    destruct He as [<-|[]]. vm_compute. discriminate.
Defined.

(** C5: the list a category maps to is the first five entries of the
    ranking of that category's keywords: the distinct keywords of the
    concatenated keyword sequences of its emails in log order, each before
    every keyword that occurs less often or as often but first later.  So
    it has at most five keywords, all distinct. *)
Theorem top_keywords_ranked (log : list ProcessedEmail) (cat : string) :
  cat ∈ ["Product Support"; "Billing"; "General Inquiry"] →
  ∃ ranking top,
    generate_keyword_analytics (with_log log) !! cat = Some top
    ∧ top = take 5 ranking
    ∧ length top ≤ 5
    ∧ NoDup top
    ∧ NoDup ranking
    ∧ (∀ w, w ∈ ranking ↔ w ∈ category_keywords cat log)
    ∧ StronglySorted (ranks_before (category_keywords cat log)) ranking.
Proof.
  intros Hcat.
  destruct (ranking_of_keywords (category_keywords cat log))
    as (Hnd & Hmem & Hsorted).
  eexists _, _. split_and!; [| reflexivity | | | exact Hnd | exact Hmem | exact Hsorted].
  - by rewrite analytics_lookup, top_keywords_of_eq.
  - rewrite length_take. lia.
  - eapply sublist_NoDup; eauto using sublist_take.
Qed.

Lemma top_keywords_ranked_witness :
  ∃ ranking top,
    generate_keyword_analytics (with_log sample_log) !! "Billing" = Some top
    ∧ top = take 5 ranking
    ∧ length top ≤ 5
    ∧ NoDup top
    ∧ NoDup ranking
    ∧ (∀ w, w ∈ ranking ↔ w ∈ category_keywords "Billing" sample_log)
    ∧ StronglySorted (ranks_before (category_keywords "Billing" sample_log))
        ranking.
Proof.
  apply (top_keywords_ranked sample_log "Billing").
  apply list_elem_of_In. simpl. tauto.
Defined.

(** Keywords of equal count come in the order of their first occurrence,
    "zebra" before "refund" before "apple", and the sixth and seventh are
    cut. *)
Example top_keywords_of_sample_log :
  generate_keyword_analytics (with_log sample_log) !! "Billing"
  = Some ["zebra"; "refund"; "apple"; "mango"; "kiwi"]
  ∧ category_keywords "Billing" sample_log
    = ["zebra"; "refund"; "apple"; "refund"; "mango"; "apple"; "zebra";
       "kiwi"; "lemon"; "fig"].
Proof. by vm_compute. Qed.

Lemma summary_is_template_witness :
  ∃ seg s,
    segment_before_first "." "No full stop here" seg
    ∧ first_chars 100 seg s
    ∧ (classify_and_summarize_email "No full stop here" "a@x.com").2
      = "Customer " +:+ "a@x.com" +:+ " needs help with "
        +:+ Str.lower (classify_and_summarize_email "No full stop here" "a@x.com").1
        +:+ ": " +:+ s +:+ "..."
    ∧ (¬ substring_of "." "No full stop here" → seg = "No full stop here").
Proof. apply (summary_is_template "No full stop here" "a@x.com"). Defined.

Example summary_of_login_mail :
  classify_and_summarize_email
    "Login not working I can't log in. Error: invalid credentials." "a@x.com"
  = ("Product Support",
     "Customer a@x.com needs help with product support: Login not working I can't log in...").
Proof. reflexivity. Qed.

(** * Further properties *)

(** ** Classifier and summary *)

(** X1: the category is one of the three, and which one is decided by the
    keywords the lowercased text contains: "Product Support" exactly when
    it contains a Product-Support keyword, "Billing" exactly when it
    contains none of those but a Billing keyword, "General Inquiry" exactly
    when it contains neither. *)
Theorem category_characterised (text sender : string) :
  let cat := (classify_and_summarize_email text sender).1 in
  let has words := ∃ w, In w words ∧ substring_of w (Str.lower text) in
  cat ∈ ["Product Support"; "Billing"; "General Inquiry"]
  ∧ (cat = "Product Support" ↔ has product_support_words)
  ∧ (cat = "Billing" ↔ ¬ has product_support_words ∧ has billing_words)
  ∧ (cat = "General Inquiry"
     ↔ ¬ has product_support_words ∧ ¬ has billing_words).
Proof.
  cbn zeta. unfold classify_and_summarize_email, classify; cbn [fst].
  rewrite <- !any_in_spec.
  destruct (any_in product_support_words (Str.lower text)),
           (any_in billing_words (Str.lower text));
    (split_and!; [apply list_elem_of_In; simpl; tauto | split; intros; try done..]);
    try (destruct_and?; done); try (by split).
Qed.

Section Lowercase.

Lemma char_lower_idemp (c : ascii) : Char.lower (Char.lower c) = Char.lower c.
Proof. by destruct c as [[] [] [] [] [] [] [] []]. Qed.

Lemma char_lower_not_upper (c : ascii) : Char.is_upper (Char.lower c) = false.
Proof. by destruct c as [[] [] [] [] [] [] [] []]. Qed.

Lemma lower_idemp (s : string) : Str.lower (Str.lower s) = Str.lower s.
Proof.
  induction s as [|c s IH]; simpl; [done|]. by rewrite char_lower_idemp, IH.
Qed.

Lemma lower_length (s : string) : String.length (Str.lower s) = String.length s.
Proof. induction s as [|c s IH]; simpl; [done | by rewrite IH]. Qed.

Lemma lower_append (a b : string) :
  Str.lower (a +:+ b) = Str.lower a +:+ Str.lower b.
Proof.
  induction a as [|c a IH]; [done|].
  rewrite append_cons. simpl. by rewrite IH, append_cons.
Qed.

Lemma lower_no_upper (s : string) :
  all_chars (λ c, negb (Char.is_upper c)) (Str.lower s) = true.
Proof.
  induction s as [|c s IH]; simpl; [done|].
  by rewrite char_lower_not_upper, IH.
Qed.

End Lowercase.

(** X2: letter case does not matter to the category nor to the keywords:
    lowercasing the text beforehand changes neither. *)
Theorem case_does_not_matter (text sender : string) :
  (classify_and_summarize_email (Str.lower text) sender).1
  = (classify_and_summarize_email text sender).1
  ∧ extract_keywords (Str.lower text) = extract_keywords text.
Proof.
  unfold classify_and_summarize_email, extract_keywords; cbn [fst].
  by rewrite lower_idemp.
Qed.

(** X3: the summary is at most 146 characters longer than the sender:
    31 of the template, at most 15 of the category and at most 100 of the
    text. *)
Theorem summary_length_bound (text sender : string) :
  String.length (classify_and_summarize_email text sender).2
  ≤ String.length sender + 146.
Proof.
  unfold classify_and_summarize_email; cbn [snd].
  rewrite !append_length, lower_length.
  destruct (slice_to_first_chars 100 (Str.first (Str.split "." text)))
    as [_ Hlen]. rewrite Hlen.
  assert (String.length (classify (Str.lower text)) ≤ 15) as Hcat.
  { unfold classify.
    destruct (any_in product_support_words (Str.lower text)),
             (any_in billing_words (Str.lower text));
      cbv [String.length]; lia. }
  revert Hcat.
  generalize (String.length (classify (Str.lower text))),
             (String.length (Str.first (Str.split "." text))).
  intros n m Hn. cbv [String.length]. lia.
Qed.

Example summary_length_bound_reached :
  String.length
    (classify_and_summarize_email
       "0123456789012345678901234567890123456789012345678901234567890123456789012345678901234567890123456789 and more"
       "a@x.com").2
  = String.length "a@x.com" + 146.
Proof. reflexivity. Qed.

(** ** Keywords *)

Section KeywordFacts.

Lemma all_chars_and (P Q : ascii → bool) (s : string) :
  all_chars P s = true → all_chars Q s = true →
  all_chars (λ c, P c && Q c) s = true.
Proof.
  induction s as [|c s IH]; simpl; [done|].
  rewrite !andb_true_iff. intros [HP HPs] [HQ HQs].
  split_and!; [done | done | by apply IH].
Qed.

(** The runs of the pieces are made of characters of the text. *)
Lemma pieces_runs_chars (P : ascii → bool) (s : string) prev :
  all_chars P s = true →
  Forall (λ p, all_chars P (run_of p) = true) (pieces prev s).
Proof.
  revert prev. induction s as [|c s IH]; intros prev; cbn [pieces all_chars].
  - by constructor.
  - intros [Hc Hs]%andb_true_iff. destruct (Char.is_letter c).
    + destruct (pieces_shape s) as (r & n & tl & Hshape).
      specialize (IH prev Hs). rewrite Hshape in *.
      apply Forall_cons in IH as [Hr Htl]. constructor; [|done].
      unfold run_of in *. simpl in *. by rewrite Hc, Hr.
    + constructor; [done | by apply IH].
Qed.

Lemma findall_words_chars (P : ascii → bool) (s : string) :
  all_chars P s = true →
  Forall (λ w, all_chars P w = true) (Re.findall_words s).
Proof.
  intros Hs. rewrite findall_words_runs.
  unfold delimited_letter_runs, delimited_runs_from.
  apply Forall_fmap, Forall_forall. intros p [_ Hp]%list_elem_of_filter.
  pose proof (pieces_runs_chars P s None Hs) as Hall.
  rewrite Forall_forall in Hall. by apply Hall.
Qed.

Lemma letter_not_upper_is_lower (c : ascii) :
  Char.is_letter c && negb (Char.is_digit c) = true →
  negb (Char.is_upper c) = true → Char.is_lower c = true.
Proof.
  unfold Char.is_letter. destruct (Char.is_lower c), (Char.is_upper c); done.
Qed.

(** A run of a piece occurs in the glued pieces. *)
Lemma run_in_glue (ps : list (option ascii * string * option ascii)) p :
  p ∈ ps → substring_of (run_of p) (glue ps).
Proof.
  induction ps as [|q ps IH]; [by intros ?%elem_of_nil|].
  intros [Heq|Hin]%elem_of_cons; cbn [glue].
  - subst q.
    by exists "", (match p.2 with Some c => String c "" | None => "" end
                   +:+ glue ps).
  - destruct (IH Hin) as (pre & post & ->).
    exists (run_of q
            +:+ match q.2 with Some c => String c "" | None => "" end
            +:+ pre), post.
    by rewrite !append_assoc.
Qed.

Lemma findall_words_substrings (s : string) :
  Forall (λ w, substring_of w s) (Re.findall_words s).
Proof.
  rewrite findall_words_runs.
  unfold delimited_letter_runs, delimited_runs_from.
  apply Forall_fmap, Forall_forall. intros p [_ Hp]%list_elem_of_filter.
  pose proof (run_in_glue _ _ Hp) as Hsub. by rewrite pieces_glue in Hsub.
Qed.

(** Two pieces with the same run and neighbours alike in being word
    characters are kept or dropped together. *)
Lemma delimited_heads q1 q2 (r : string) n1 n2 tl1 tl2 rest :
  Re.word_at q1 = Re.word_at q2 →
  Re.word_at n1 = Re.word_at n2 →
  run_of <$> filter delimited tl1 = (run_of <$> filter delimited tl2) ++ rest →
  run_of <$> filter delimited ((q1, r, n1) :: tl1)
  = (run_of <$> filter delimited ((q2, r, n2) :: tl2)) ++ rest.
Proof.
  intros Hq Hn Htl.
  destruct (decide (delimited (q1, r, n1))) as [Hd|Hd].
  - rewrite !filter_cons_True, !fmap_cons; [by rewrite Htl | | done].
    unfold delimited in *. simpl in *. by rewrite <- Hq, <- Hn.
  - rewrite !filter_cons_False; [done | | done].
    unfold delimited in *. simpl in *. by rewrite <- Hq, <- Hn.
Qed.

(** Cutting the text at a character that is no word character cuts the
    pieces: the first part keeps its pieces, its last one now ending at
    that character, and the second part starts anew after it. *)
Lemma pieces_append (a b : string) (c : ascii) :
  Char.is_word c = false →
  ∃ r n1 n2 tl1 tl2,
    (∀ q, pieces q (a +:+ String c b) = (q, r, n1) :: tl1)
    ∧ (∀ q, pieces q a = (q, r, n2) :: tl2)
    ∧ Re.word_at n1 = Re.word_at n2
    ∧ run_of <$> filter delimited tl1
      = (run_of <$> filter delimited tl2)
        ++ (run_of <$> filter delimited (pieces (Some c) b)).
Proof.
  intros Hc.
  assert (Char.is_letter c = false) as Hletter.
  { destruct (Char.is_letter c) eqn:E; [|done].
    by rewrite (letter_is_word c E) in Hc. }
  induction a as [|x a (r & n1 & n2 & tl1 & tl2 & H1 & H2 & Hn & Htl)].
  - exists "", (Some c), None, (pieces (Some c) b), [].
    assert (∀ q, pieces q ("" +:+ String c b)
                 = (q, "", Some c) :: pieces (Some c) b) as H1.
    { intros q. rewrite append_nil_l. cbn [pieces]. by rewrite Hletter. }
    by split_and!.
  - rewrite append_cons. destruct (Char.is_letter x) eqn:Hx.
    + exists (String x r), n1, n2, tl1, tl2.
      pose proof (pieces_letter x _ r n1 tl1 Hx H1).
      pose proof (pieces_letter x _ r n2 tl2 Hx H2).
      by split_and!.
    + exists "", (Some x), (Some x),
        (pieces (Some x) (a +:+ String c b)), (pieces (Some x) a).
      assert (∀ q, pieces q (String x (a +:+ String c b))
                   = (q, "", Some x) :: pieces (Some x) (a +:+ String c b))
        as H1'.
      { intros q. cbn [pieces]. by rewrite Hx. }
      assert (∀ q, pieces q (String x a) = (q, "", Some x) :: pieces (Some x) a)
        as H2'.
      { intros q. cbn [pieces]. by rewrite Hx. }
      split_and!; [done | done | done |].
      rewrite H1, H2. by apply delimited_heads.
Qed.

Lemma findall_words_append (a b : string) (c : ascii) :
  Char.is_word c = false →
  Re.findall_words (a +:+ String c b)
  = Re.findall_words a ++ Re.findall_words b.
Proof.
  intros Hc.
  destruct (pieces_append a b c Hc)
    as (r & n1 & n2 & tl1 & tl2 & H1 & H2 & Hn & Htl).
  assert (run_of <$> filter delimited (pieces (Some c) b)
          = run_of <$> filter delimited (pieces None b)) as Hb.
  { destruct (pieces_shape b) as (rb & nb & tlb & Hshape).
    rewrite !Hshape.
    pose proof (delimited_heads (Some c) None rb nb nb tlb tlb []) as Hheads.
    rewrite !app_nil_r in Hheads. apply Hheads; [|done..].
    simpl. by rewrite Hc. }
  rewrite !findall_words_runs.
  unfold delimited_letter_runs, delimited_runs_from.
  rewrite H1, H2, <- Hb. by apply delimited_heads.
Qed.

End KeywordFacts.

(** X4: every keyword is made of the lowercase letters a to z only. *)
Theorem keywords_lowercase (text : string) :
  Forall (λ w, all_chars Char.is_lower w = true) (extract_keywords text).
Proof.
  unfold extract_keywords. apply Forall_forall.
  intros w [_ Hw]%list_elem_of_filter.
  pose proof (findall_words_letters (Str.lower text)) as Hletters.
  pose proof (findall_words_chars _ _ (lower_no_upper text)) as Hupper.
  rewrite Forall_forall in Hletters, Hupper.
  eapply all_chars_impl;
    [|apply (all_chars_and _ _ _ (Hletters w Hw) (Hupper w Hw))].
  intros c [? ?]%andb_true_iff. by apply letter_not_upper_is_lower.
Qed.

(** X5: every keyword occurs in the lowercased text. *)
Theorem keywords_occur_in_text (text : string) :
  Forall (λ w, substring_of w (Str.lower text)) (extract_keywords text).
Proof.
  unfold extract_keywords. apply Forall_forall.
  intros w [_ Hw]%list_elem_of_filter.
  pose proof (findall_words_substrings (Str.lower text)) as Hsub.
  rewrite Forall_forall in Hsub. by apply Hsub.
Qed.

(** X6: the keywords of a subject and a content joined by a space, as
    [process_email] joins them, are the keywords of the subject followed by
    the keywords of the content. *)
Theorem keywords_of_subject_and_content (subject content : string) :
  extract_keywords (subject +:+ " " +:+ content)
  = extract_keywords subject ++ extract_keywords content.
Proof.
  unfold extract_keywords.
  rewrite lower_append, lower_append.
  change (Str.lower " ") with " ".
  change (" " +:+ Str.lower content) with (String " " (Str.lower content)).
  rewrite findall_words_append by done. by rewrite filter_app.
Qed.

(** ** The pipeline, call by call *)

Section PipelineFacts.

(** A call that returns has read the three fields and appended the record
    built from them; a call that raises has left the system alone. *)
Lemma process_email_inv now (email_data : gmap string string) self e self' :
  process_email now email_data self = (inr e, self') →
  ∃ s j c,
    email_data !! "sender" = Some s ∧ email_data !! "subject" = Some j
    ∧ email_data !! "content" = Some c
    ∧ e = record_of now s j c
    ∧ self' = {| categories := categories self;
                 processed_emails := processed_emails self ++ [e] |}.
Proof.
  destruct (email_data !! "sender") as [s|] eqn:Hs;
    [|unfold process_email, mbind, M_bind, bind, getitem; by rewrite Hs].
  destruct (email_data !! "subject") as [j|] eqn:Hj;
    [|unfold process_email, mbind, M_bind, bind, getitem; by rewrite Hs, Hj].
  destruct (email_data !! "content") as [c|] eqn:Hc;
    [|unfold process_email, mbind, M_bind, bind, getitem;
      by rewrite Hs, Hj, Hc].
  rewrite (process_email_run now email_data self s j c Hs Hj Hc).
  intros [= <- <-]. by exists s, j, c.
Qed.

Lemma process_email_raises now (email_data : gmap string string) self err self' :
  process_email now email_data self = (inl err, self') → self' = self.
Proof.
  unfold process_email, mbind, M_bind, bind, getitem.
  destruct (email_data !! "sender"); simpl; [|by intros [= _ <-]].
  destruct (email_data !! "subject"); simpl; [|by intros [= _ <-]].
  destruct (email_data !! "content"); simpl; [|by intros [= _ <-]].
  done.
Qed.

Lemma extracted_words_long (text : string) :
  Forall (λ w, 3 < String.length w ∧ w ∉ stop_words) (extract_keywords text).
Proof.
  apply Forall_forall. intros w Hw.
  by apply list_elem_of_filter in Hw as [Hw _].
Qed.

Lemma extracted_words_lowercase (text : string) :
  Forall (λ w, all_chars Char.is_lower w = true) (extract_keywords text).
Proof.
  unfold extract_keywords. apply Forall_forall.
  intros w [_ Hw]%list_elem_of_filter.
  pose proof (findall_words_letters (Str.lower text)) as Hletters.
  pose proof (findall_words_chars _ _ (lower_no_upper text)) as Hupper.
  rewrite Forall_forall in Hletters, Hupper.
  eapply all_chars_impl;
    [|apply (all_chars_and _ _ _ (Hletters w Hw) (Hupper w Hw))].
  intros c [? ?]%andb_true_iff. by apply letter_not_upper_is_lower.
Qed.

Lemma long_word_not_empty (w : string) : 3 < String.length w → w ≠ "".
Proof. intros Hlen ->. simpl in Hlen. lia. Qed.

Lemma record_of_pipeline_record (now s j c : string) :
  pipeline_record (record_of now s j c).
Proof.
  split.
  - unfold record_of, classify_and_summarize_email, classify.
    cbn [category channel fst snd].
    apply list_elem_of_In.
    destruct (any_in product_support_words (Str.lower (j +:+ " " +:+ c))),
             (any_in billing_words (Str.lower (j +:+ " " +:+ c)));
      [left | left | right; left | right; right; left]; reflexivity.
  - cbn [record_of keywords].
    pose proof (extracted_words_long (j +:+ " " +:+ c)) as Hlong.
    pose proof (extracted_words_lowercase (j +:+ " " +:+ c)) as Hlow.
    rewrite Forall_forall in *. intros w Hw.
    destruct (Hlong w Hw). split_and!; [done | done | by apply Hlow].
Qed.

Lemma reachable_records (self : EmailTriageSystem) :
  reachable self →
  categories self = categories init
  ∧ Forall pipeline_record (processed_emails self).
Proof.
  induction 1 as [|now d self r self' Hreach [IHcat IHlog] Hrun].
  - split; [done | constructor].
  - destruct r as [err|e].
    + by apply process_email_raises in Hrun as ->.
    + apply process_email_inv in Hrun as (s & j & c & _ & _ & _ & -> & ->).
      simpl. split; [done|].
      apply Forall_app. split; [done|].
      constructor; [apply record_of_pipeline_record | constructor].
Qed.

End PipelineFacts.

(** X7: every record [process_email] returns has one of the three
    categories with the channel that goes with it, "#product-support",
    "#billing" or "#general-inquiry", and keywords that are longer than
    three characters, no stop words and all lowercase letters. *)
Theorem returned_record_well_formed now (email_data : gmap string string)
    self e self' :
  process_email now email_data self = (inr e, self') →
  pipeline_record e.
Proof.
  intros (s & j & c & _ & _ & _ & -> & _)%process_email_inv.
  apply record_of_pipeline_record.
Qed.

Lemma returned_record_well_formed_witness :
  pipeline_record
    (record_of "2026-01-01T00:00:00" "a@x.com" "Refund" "Refund my payment.").
Proof.
  apply (returned_record_well_formed "2026-01-01T00:00:00"
           {[ "sender" := "a@x.com"; "subject" := "Refund";
              "content" := "Refund my payment." ]}
           init _
           (with_log [record_of "2026-01-01T00:00:00" "a@x.com" "Refund"
                        "Refund my payment."])).
  reflexivity.
Defined.

(** X8: the error names the first missing field in the order sender,
    subject, content, whatever else is missing or present. *)
Theorem key_error_names_first_missing now (email_data : gmap string string)
    self :
  (email_data !! "sender" = None →
     process_email now email_data self = (inl (KeyError "sender"), self))
  ∧ (is_Some (email_data !! "sender") → email_data !! "subject" = None →
       process_email now email_data self = (inl (KeyError "subject"), self))
  ∧ (is_Some (email_data !! "sender") → is_Some (email_data !! "subject") →
       email_data !! "content" = None →
       process_email now email_data self = (inl (KeyError "content"), self)).
Proof.
  unfold process_email, mbind, M_bind, bind, getitem. split_and!.
  - by intros ->.
  - by intros [s ->] ->.
  - by intros [s ->] [j ->] ->.
Qed.

Lemma key_error_names_first_missing_witness :
  process_email "2026-01-01T00:00:00" {[ "content" := "Hi." ]} init
    = (inl (KeyError "sender"), init)
  ∧ process_email "2026-01-01T00:00:00" {[ "sender" := "a@x.com" ]} init
    = (inl (KeyError "subject"), init)
  ∧ process_email "2026-01-01T00:00:00"
      {[ "sender" := "a@x.com"; "subject" := "Hello" ]} init
    = (inl (KeyError "content"), init).
Proof.
  split_and!.
  - apply (key_error_names_first_missing "2026-01-01T00:00:00"
             {[ "content" := "Hi." ]} init). reflexivity.
  - apply (key_error_names_first_missing "2026-01-01T00:00:00"
             {[ "sender" := "a@x.com" ]} init);
      [eexists|]; reflexivity.
  - apply (key_error_names_first_missing "2026-01-01T00:00:00"
             {[ "sender" := "a@x.com"; "subject" := "Hello" ]} init);
      [eexists | eexists |]; reflexivity.
Defined.

(** X9: a field of the raw email other than sender, subject and content is
    ignored: with it or without it the call does the same. *)
Theorem other_fields_ignored now (email_data : gmap string string) self
    (key value : string) :
  key ∉ ["sender"; "subject"; "content"] →
  process_email now (<[key := value]> email_data) self
  = process_email now email_data self.
Proof.
  intros Hkey.
  assert (key ≠ "sender" ∧ key ≠ "subject" ∧ key ≠ "content")
    as (Hs & Hj & Hc).
  { split_and!; intros ->; apply Hkey, list_elem_of_In; simpl; tauto. }
  unfold process_email, mbind, M_bind, bind, getitem.
  by rewrite !lookup_insert_ne by done.
Qed.

Lemma other_fields_ignored_witness :
  process_email "2026-01-01T00:00:00"
    (<["cc" := "boss@x.com"]>
       {[ "sender" := "a@x.com"; "subject" := "Hello"; "content" := "Hi." ]})
    init
  = process_email "2026-01-01T00:00:00"
      {[ "sender" := "a@x.com"; "subject" := "Hello"; "content" := "Hi." ]}
      init.
Proof.
  apply (other_fields_ignored "2026-01-01T00:00:00"
           {[ "sender" := "a@x.com"; "subject" := "Hello"; "content" := "Hi." ]}
           init "cc" "boss@x.com").
  intros Hin. apply list_elem_of_In in Hin. simpl in Hin.
  destruct Hin as [Heq|[Heq|[Heq|[]]]]; discriminate Heq.
Defined.

(** X10: in every system a run can reach, by calls of [process_email] that
    return or raise, the categories are the three of [__init__] and every
    record of the log has one of them with its channel and keywords that
    are long, no stop words and lowercase. *)
Theorem reachable_invariant (self : EmailTriageSystem) :
  reachable self →
  categories self = ["Product Support"; "Billing"; "General Inquiry"]
  ∧ Forall pipeline_record (processed_emails self).
Proof. apply reachable_records. Qed.

Lemma reachable_invariant_witness :
  categories
    (with_log [record_of "2026-01-01T00:00:00" "a@x.com" "Refund"
                 "Refund my payment."])
  = ["Product Support"; "Billing"; "General Inquiry"]
  ∧ Forall pipeline_record
      (processed_emails
         (with_log [record_of "2026-01-01T00:00:00" "a@x.com" "Refund"
                      "Refund my payment."])).
Proof.
  apply (reachable_invariant
           (with_log [record_of "2026-01-01T00:00:00" "a@x.com" "Refund"
                        "Refund my payment."])).
  apply (reachable_process "2026-01-01T00:00:00"
           {[ "sender" := "a@x.com"; "subject" := "Refund";
              "content" := "Refund my payment." ]}
           init
           (inr (record_of "2026-01-01T00:00:00" "a@x.com" "Refund"
                   "Refund my payment."))).
  - apply reachable_init.
  - reflexivity.
Defined.

(** ** Analytics over a run *)

Section AnalyticsFacts.

Lemma foldl_insert_lookup {V} (f : string → V) (cats : list string)
    (m : gmap string V) (cat : string) :
  foldl (λ a c, <[c := f c]> a) m cats !! cat
  = if decide (cat ∈ cats) then Some (f cat) else m !! cat.
Proof.
  revert m. induction cats as [|c cats IH]; intros m; cbn [foldl].
  - rewrite decide_False; [done | apply not_elem_of_nil].
  - rewrite IH. destruct (decide (cat ∈ cats)) as [Hin|Hin].
    + rewrite decide_True; [done | by right].
    + destruct (decide (c = cat)) as [->|Hne].
      * rewrite lookup_insert_eq, decide_True; [done | by left].
      * rewrite lookup_insert_ne by done.
        rewrite decide_False; [done|]. by intros [->|?]%elem_of_cons.
Qed.

(** The mapping has a key for each entry of [categories] and no other. *)
Lemma analytics_lookup_any (self : EmailTriageSystem) (cat : string) :
  generate_keyword_analytics self !! cat
  = if decide (cat ∈ categories self)
    then Some (top_keywords_of cat (processed_emails self))
    else None.
Proof.
  unfold generate_keyword_analytics.
  rewrite (foldl_insert_lookup
             (λ c, top_keywords_of c (processed_emails self))).
  by rewrite lookup_empty.
Qed.

Lemma top_keywords_of_snoc_other (cat : string) (log : list ProcessedEmail) e :
  category e ≠ cat → top_keywords_of cat (log ++ [e]) = top_keywords_of cat log.
Proof.
  intros Hne. unfold top_keywords_of.
  by rewrite filter_app, filter_cons_False, filter_nil, app_nil_r.
Qed.



Lemma occurrences_not_elem (x : string) (ks : list string) :
  x ∉ ks → occurrences x ks = 0.
Proof.
  intros Hx. unfold occurrences.
  induction ks as [|k ks IH]; [done|].
  apply not_elem_of_cons in Hx as [Hne Hx].
  rewrite filter_cons_False by done. by apply IH.
Qed.

Lemma ranks_before_count (ks : list string) (a b : string) :
  ranks_before ks a b → occurrences b ks ≤ occurrences a ks.
Proof. unfold ranks_before. lia. Qed.

End AnalyticsFacts.

(** X11: processing an email leaves the analytics of every category but
    its own as they were. *)
Theorem other_categories_unchanged now (email_data : gmap string string)
    self e self' (cat : string) :
  process_email now email_data self = (inr e, self') →
  cat ≠ category e →
  generate_keyword_analytics self' !! cat
  = generate_keyword_analytics self !! cat.
Proof.
  intros (s & j & c & _ & _ & _ & _ & ->)%process_email_inv Hcat.
  rewrite !analytics_lookup_any. cbn [categories processed_emails].
  by rewrite top_keywords_of_snoc_other.
Qed.

Lemma other_categories_unchanged_witness :
  generate_keyword_analytics
    (with_log (sample_log
               ++ [record_of "2026-01-01T00:00:00" "a@x.com" "Refund"
                     "Refund my payment."]))
    !! "Product Support"
  = generate_keyword_analytics (with_log sample_log) !! "Product Support".
Proof.
  apply (other_categories_unchanged "2026-01-01T00:00:00"
           {[ "sender" := "a@x.com"; "subject" := "Refund";
              "content" := "Refund my payment." ]}
           (with_log sample_log)
           (record_of "2026-01-01T00:00:00" "a@x.com" "Refund"
              "Refund my payment.")).
  - reflexivity.
  - vm_compute. discriminate.
Defined.



(** X13: a category lists all its distinct keywords when there are at most
    five of them, and five otherwise. *)
Theorem top_keywords_length (log : list ProcessedEmail) (cat : string) :
  cat ∈ ["Product Support"; "Billing"; "General Inquiry"] →
  ∃ top,
    generate_keyword_analytics (with_log log) !! cat = Some top
    ∧ length top
      = 5 `min` size (list_to_set (category_keywords cat log) : gset string).
Proof.
  intros Hcat. eexists. split; [by apply analytics_lookup|].
  rewrite top_keywords_of_eq, length_take.
  destruct (ranking_of_keywords (category_keywords cat log))
    as (Hnd & Hmem & _).
  rewrite <- (size_list_to_set (C:=gset string)) by done.
  f_equal. f_equal. apply set_eq. intros w.
  by rewrite !elem_of_list_to_set.
Qed.

Lemma top_keywords_length_witness :
  ∃ top,
    generate_keyword_analytics (with_log sample_log) !! "Product Support"
    = Some top
    ∧ length top
      = 5 `min` size (list_to_set
                        (category_keywords "Product Support" sample_log)
                      : gset string).
Proof.
  apply (top_keywords_length sample_log "Product Support").
  apply list_elem_of_In. simpl. tauto.
Defined.

(** X14: the keywords a category lists stand in order of count, greatest
    first, and no keyword of the category left out of the list occurs more
    often than a listed one. *)
Theorem top_keywords_are_most_frequent (log : list ProcessedEmail)
    (cat : string) :
  cat ∈ ["Product Support"; "Billing"; "General Inquiry"] →
  ∃ top,
    generate_keyword_analytics (with_log log) !! cat = Some top
    ∧ StronglySorted
        (λ a b, occurrences b (category_keywords cat log)
                ≤ occurrences a (category_keywords cat log))
        top
    ∧ ∀ w x, w ∈ top → x ∉ top →
             occurrences x (category_keywords cat log)
             ≤ occurrences w (category_keywords cat log).
Proof.
  intros Hcat. eexists. split; [by apply analytics_lookup|].
  rewrite top_keywords_of_eq.
  destruct (ranking_of_keywords (category_keywords cat log))
    as (Hnd & Hmem & Hsorted).
  revert Hnd Hmem Hsorted.
  generalize (sorted_by_count_desc (Counter (category_keywords cat log))).*1.
  intros ranking Hnd Hmem Hsorted.
  rewrite <- (take_drop 5 ranking) in Hsorted.
  apply StronglySorted_app in Hsorted as (Hcross & Htake & _).
  split.
  - eapply StronglySorted_elem_impl; [|exact Htake].
    intros a b _ _. apply ranks_before_count.
  - intros w x Hw Hx.
    destruct (decide (x ∈ category_keywords cat log)) as [Hin|Hnin];
      [|rewrite (occurrences_not_elem x) by done; lia].
    apply Hmem in Hin. rewrite <- (take_drop 5 ranking) in Hin.
    apply elem_of_app in Hin as [Hin|Hin]; [done|].
    by apply ranks_before_count, Hcross.
Qed.

Lemma top_keywords_are_most_frequent_witness :
  ∃ top,
    generate_keyword_analytics (with_log sample_log) !! "Billing" = Some top
    ∧ StronglySorted
        (λ a b, occurrences b (category_keywords "Billing" sample_log)
                ≤ occurrences a (category_keywords "Billing" sample_log))
        top
    ∧ ∀ w x, w ∈ top → x ∉ top →
             occurrences x (category_keywords "Billing" sample_log)
             ≤ occurrences w (category_keywords "Billing" sample_log).
Proof.
  apply (top_keywords_are_most_frequent sample_log "Billing").
  apply list_elem_of_In. simpl. tauto.
Defined.

(** ** What the two sinks keep of the log *)

Section SinkFacts.

Lemma join_cons (w : string) (l : list string) :
  Str.join ", " (w :: l) = w +:+ join_rest l.
Proof. destruct l; simpl; [by rewrite append_nil_r | done]. Qed.

Lemma join_rest_starts (l : list string) :
  join_rest l = "" ∨ ∃ t, join_rest l = String "," t.
Proof. destruct l; [by left | right; by eexists]. Qed.

Lemma comma_free_prefix (a b x y : string) :
  all_chars (λ c, negb (Ascii.eqb c ",")) a = true →
  all_chars (λ c, negb (Ascii.eqb c ",")) b = true →
  (x = "" ∨ ∃ t, x = String "," t) →
  (y = "" ∨ ∃ t, y = String "," t) →
  a +:+ x = b +:+ y → a = b ∧ x = y.
Proof.
  revert b. induction a as [|c a IH]; intros b Ha Hb Hx Hy Heq.
  - destruct b as [|d b]; [done|].
    rewrite append_nil_l, append_cons in Heq. exfalso.
    destruct Hx as [->|[t ->]]; [done|]. injection Heq as <- _.
    simpl in Hb. discriminate Hb.
  - destruct b as [|d b].
    + rewrite append_nil_l, append_cons in Heq. exfalso.
      destruct Hy as [->|[t ->]]; [done|]. injection Heq as -> _.
      simpl in Ha. discriminate Ha.
    + rewrite !append_cons in Heq. injection Heq as -> Heq.
      simpl in Ha, Hb.
      apply andb_true_iff in Ha as [_ Ha]. apply andb_true_iff in Hb as [_ Hb].
      destruct (IH b Ha Hb Hx Hy Heq) as [-> ->]. done.
Qed.

(** The joined keywords field gives the keywords back when no keyword is
    empty or holds a comma. *)
Lemma join_csv_words_inj (l1 l2 : list string) :
  Forall csv_word l1 → Forall csv_word l2 →
  Str.join ", " l1 = Str.join ", " l2 → l1 = l2.
Proof.
  intros H1. revert l2.
  induction H1 as [|w1 l1 [Hne1 Hw1] Hl1 IH]; intros l2 H2 Heq.
  - destruct H2 as [|w2 l2 [Hne2 _] _]; [done|].
    rewrite join_cons in Heq. simpl in Heq.
    by destruct w2.
  - destruct H2 as [|w2 l2 [Hne2 Hw2] Hl2].
    + rewrite join_cons in Heq. simpl in Heq. by destruct w1.
    + rewrite !join_cons in Heq.
      apply comma_free_prefix in Heq as [-> Hrest];
        [|done | done | apply join_rest_starts..].
      f_equal. apply IH; [done|].
      destruct l1 as [|a l1], l2 as [|b l2]; try done.
      unfold join_rest in Hrest. by injection Hrest.
Qed.

Lemma lower_char_not_comma (c : ascii) :
  Char.is_lower c = true → negb (Ascii.eqb c ",") = true.
Proof. by destruct c as [[] [] [] [] [] [] [] []]. Qed.

Lemma pipeline_record_csv_words (e : ProcessedEmail) :
  pipeline_record e → Forall csv_word (keywords e).
Proof.
  intros [_ Hks]. eapply Forall_impl; [exact Hks|].
  intros w (Hlen & _ & Hlow). split.
  - by apply long_word_not_empty.
  - eapply all_chars_impl; [|exact Hlow]. apply lower_char_not_comma.
Qed.

Lemma fmap_inj_list {A B} (f : A → B) (l l' : list A) :
  (∀ x y, f x = f y → x = y) → f <$> l = f <$> l' → l = l'.
Proof.
  intros Hf. revert l'. induction l as [|x l IH]; intros [|y l']; try done.
  csimpl. intros [= Hxy Hl]. f_equal; [by apply Hf | by apply IH].
Qed.

Lemma email_to_json_inj (e1 e2 : ProcessedEmail) :
  email_to_json e1 = email_to_json e2 → e1 = e2.
Proof.
  destruct e1 as [t1 s1 j1 c1 m1 k1 h1], e2 as [t2 s2 j2 c2 m2 k2 h2].
  unfold email_to_json. simpl.
  intros [= -> -> -> -> -> Hks ->]. f_equal.
  apply (fmap_inj_list JString); [|done]. by intros x y [= ->].
Qed.

End SinkFacts.

(** X15: a row of the CSV file determines the record the pipeline built:
    two records with the pipeline's guarantees that give the same row are
    the same, the joined keywords field giving the keywords back. *)
Theorem csv_row_determines_record (e1 e2 : ProcessedEmail) :
  pipeline_record e1 → pipeline_record e2 →
  csv_row e1 = csv_row e2 → e1 = e2.
Proof.
  intros H1%pipeline_record_csv_words H2%pipeline_record_csv_words.
  destruct e1 as [t1 s1 j1 c1 m1 k1 h1], e2 as [t2 s2 j2 c2 m2 k2 h2].
  unfold csv_row. simpl in *.
  intros [= -> -> -> -> -> Hks ->]. f_equal.
  by apply join_csv_words_inj.
Qed.

Lemma csv_row_determines_record_witness :
  record_of "2026-01-01T00:00:00" "a@x.com" "Refund" "Refund my payment."
  = record_of "2026-01-01T00:00:00" "a@x.com" "Refund" "Refund my payment.".
Proof.
  apply (csv_row_determines_record
           (record_of "2026-01-01T00:00:00" "a@x.com" "Refund"
              "Refund my payment.")
           (record_of "2026-01-01T00:00:00" "a@x.com" "Refund"
              "Refund my payment.")).
  - apply record_of_pipeline_record.
  - apply record_of_pipeline_record.
  - reflexivity.
Defined.

(** Without the pipeline's guarantees the row can blur the keywords: no
    keyword and one empty keyword give the same field, as do one keyword
    holding the separator and two keywords. *)
Example csv_row_blurs_other_keywords :
  csv_row (email_with "Billing" []) = csv_row (email_with "Billing" [""])
  ∧ csv_row (email_with "Billing" ["a, b"])
    = csv_row (email_with "Billing" ["a"; "b"]).
Proof. by split. Qed.

(** X16: [save_to_json] writes the target path for every log, the empty
    one too, for which the file holds the empty array; it touches no other
    path; and the document written determines the log, record by record
    and keyword by keyword. *)
Theorem save_to_json_document self filename (fs : gmap string json) :
  save_to_json self filename fs !! filename
  = Some (JArray (email_to_json <$> processed_emails self))
  ∧ (processed_emails self = [] →
       save_to_json self filename fs !! filename = Some (JArray []))
  ∧ (∀ other, other ≠ filename →
       save_to_json self filename fs !! other = fs !! other)
  ∧ (∀ self2 (fs2 : gmap string json),
       save_to_json self2 filename fs2 !! filename
       = save_to_json self filename fs !! filename →
       processed_emails self2 = processed_emails self).
Proof.
  unfold save_to_json. split_and!.
  - by rewrite lookup_insert_eq.
  - intros ->. by rewrite lookup_insert_eq.
  - intros other Hne. by rewrite lookup_insert_ne.
  - intros self2 fs2. rewrite !lookup_insert_eq. intros [= Heq].
    apply (fmap_inj_list email_to_json); [apply email_to_json_inj | done].
Qed.

Lemma save_to_json_document_witness :
  save_to_json init "log.json" {[ "log.json" := JString "stale" ]}
    !! "log.json"
  = Some (JArray []).
Proof.
  apply (save_to_json_document init "log.json"
           {[ "log.json" := JString "stale" ]}).
  reflexivity.
Defined.

(** ** Classification of a processed email *)

Section FieldFacts.

Lemma substring_of_append_l (w a b : string) :
  substring_of w a → substring_of w (a +:+ b).
Proof.
  intros (pre & post & ->). exists pre, (post +:+ b).
  by rewrite !append_assoc.
Qed.

Lemma substring_of_append_r (w a b : string) :
  substring_of w b → substring_of w (a +:+ b).
Proof.
  intros (pre & post & ->). exists (a +:+ pre), post.
  by rewrite !append_assoc.
Qed.

End FieldFacts.

(** X17: an email whose subject or whose content holds a Product-Support
    keyword, in any letter case, is processed as "Product Support" and
    sent to "#product-support". *)
Theorem product_support_from_either_field now
    (email_data : gmap string string) self e self' (subject content w : string) :
  process_email now email_data self = (inr e, self') →
  email_data !! "subject" = Some subject →
  email_data !! "content" = Some content →
  In w product_support_words →
  substring_of w (Str.lower subject) ∨ substring_of w (Str.lower content) →
  category e = "Product Support" ∧ channel e = "#product-support".
Proof.
  intros (s & j & c & _ & Hj & Hc & -> & _)%process_email_inv Hj' Hc' Hw Hsub.
  rewrite Hj in Hj'. rewrite Hc in Hc'.
  injection Hj' as ->. injection Hc' as ->.
  assert (any_in product_support_words
            (Str.lower (subject +:+ " " +:+ content)) = true) as Hany.
  { apply any_in_spec. exists w. split; [done|].
    rewrite !lower_append. destruct Hsub as [Hsub|Hsub].
    - by apply substring_of_append_l.
    - by apply substring_of_append_r, substring_of_append_r. }
  unfold record_of, classify_and_summarize_email, classify.
  cbn [category channel fst snd]. by rewrite Hany.
Qed.

Lemma product_support_from_either_field_witness :
  category
    (record_of "2026-01-01T00:00:00" "a@x.com" "Refund" "The app is BROKEN.")
  = "Product Support"
  ∧ channel
      (record_of "2026-01-01T00:00:00" "a@x.com" "Refund" "The app is BROKEN.")
    = "#product-support".
Proof.
  apply (product_support_from_either_field "2026-01-01T00:00:00"
           {[ "sender" := "a@x.com"; "subject" := "Refund";
              "content" := "The app is BROKEN." ]}
           init _
           (with_log [record_of "2026-01-01T00:00:00" "a@x.com" "Refund"
                        "The app is BROKEN."])
           "Refund" "The app is BROKEN." "broken").
  - reflexivity.
  - reflexivity.
  - reflexivity.
  - simpl. tauto.
  - right. by exists "the app is ", ".".
Defined.

(** A keyword can also come about across the two fields: "not" ending the
    subject and "working" starting the content make "not working". *)
Example keyword_across_fields :
  category
    (record_of "2026-01-01T00:00:00" "a@x.com" "Printer not" "working today")
  = "Product Support"
  ∧ any_in product_support_words (Str.lower "Printer not") = false
  ∧ any_in product_support_words (Str.lower "working today") = false.
Proof. by vm_compute. Qed.
